(** * CLIF VAP onset prediction: window scanner and ICU stay stitcher

    A shallow embedding of the two table transformations of the repository,

    - [Helper.find_intubation_times]   (src/helper.py, a DuckDB window query)
    - [IcuStitching.stitch_icu_stays]  (src/icu_stitching.py, a pandas pipeline)

    A table is a list of records, one per row, in row order.  A nullable
    column is an [option].  Timestamps are integers (whole seconds); the
    hour-valued parameters [time_window] and [gap_hours] are rationals, and
    the division by 3600 and the comparisons the code performs in floating
    point are carried out exactly. *)

From Stdlib Require Import String Ascii.
From Stdlib Require Import List ZArith QArith Bool Arith Lia Lqa.
From Stdlib Require Import Sorted Permutation Finite.
Import ListNotations.

Local Open Scope Z_scope.

(** Seconds in one hour: the factor of [INTERVAL 'w hours'] and of
    [.dt.total_seconds() / 3600]. *)
Definition secs_per_hour : Q := 3600 # 1.

(** ** Stable sorting

    [sort_values] with several keys and SQL [ORDER BY] are modelled by a
    stable insertion sort over a boolean "less or equal" on rows. *)
Section StableSort.
Context {A : Type}.
Variable leb : A -> A -> bool.

Fixpoint insert_sorted (x : A) (l : list A) : list A :=
  match l with
  | [] => [x]
  | y :: l' => if leb x y then x :: y :: l' else y :: insert_sorted x l'
  end.

Fixpoint stable_sort (l : list A) : list A :=
  match l with
  | [] => []
  | x :: l' => insert_sorted x (stable_sort l')
  end.

End StableSort.

Definition lebP {A} (leb : A -> A -> bool) (a b : A) : Prop := leb a b = true.

(** Comparison of nullable timestamps as sort keys: a null is placed after
    every value ([na_position='last'], [NULLS LAST]). *)
Definition opt_leb (a b : option Z) : bool :=
  match a, b with
  | Some x, Some y => x <=? y
  | _, None => true
  | None, Some _ => false
  end.

Definition opt_Z_eq_dec (a b : option Z) : {a = b} + {a <> b}.
Proof. decide equality. apply Z.eq_dec. Defined.

(** ** src/helper.py *)
Module Helper.

(** One row of the [vent] table. *)
Record vent_row := mk_vent {
  encounter_block : Z;
  recorded_dttm : option Z;
  device_category : option string;
  mode_category : option string;
  fio2_set : option Q;
  peep_set : option Q
}.

Definition is_not_null {A} (x : option A) : bool :=
  match x with Some _ => true | None => false end.

(** The four [CASE WHEN ... THEN 1 ELSE 0 END] expressions.  A null
    [device_category] makes the comparison with 'IMV' null, which takes
    the [ELSE] branch. *)
Definition case_imv (r : vent_row) : Z :=
  match device_category r with
  | Some d => if String.eqb d "IMV" then 1 else 0
  | None => 0
  end.
Definition case_mode (r : vent_row) : Z :=
  if is_not_null (mode_category r) then 1 else 0.
Definition case_fio2 (r : vent_row) : Z :=
  if is_not_null (fio2_set r) then 1 else 0.
Definition case_peep (r : vent_row) : Z :=
  if is_not_null (peep_set r) then 1 else 0.

(** [RANGE BETWEEN INTERVAL 'w hours' PRECEDING AND INTERVAL 'w hours'
    FOLLOWING] over [ORDER BY recorded_dttm]: the frame of a row at [t]
    holds the rows whose order value lies in [t - w, t + w], both ends
    included.  A row whose order value is null has its null peers as
    frame. *)
Definition in_range (time_window : Q) (t t' : Z) : bool :=
  Qle_bool (inject_Z t - time_window * secs_per_hour) (inject_Z t') &&
  Qle_bool (inject_Z t') (inject_Z t + time_window * secs_per_hour).

Definition in_frame (time_window : Q) (cur r : vent_row) : bool :=
  (encounter_block r =? encounter_block cur) &&
  match recorded_dttm cur, recorded_dttm r with
  | Some t, Some t' => in_range time_window t t'
  | None, None => true
  | _, _ => false
  end.

(** SQL [MAX] over a frame: null on an empty frame. *)
Definition sql_max (l : list Z) : option Z :=
  match l with
  | [] => None
  | x :: l' => Some (fold_left Z.max l' x)
  end.

Definition max_over (time_window : Q) (vent_data : list vent_row)
           (expr : vent_row -> Z) (cur : vent_row) : option Z :=
  sql_max (map expr (filter (in_frame time_window cur) vent_data)).

(** One row of the CTE [time_windows]. *)
Record window_row := mk_window {
  w_encounter_block : Z;
  w_recorded_dttm : option Z;
  has_imv_in_window : option Z;
  has_mode_in_window : option Z;
  has_fio2_in_window : option Z;
  has_peep_in_window : option Z
}.

Definition time_windows (vent_data : list vent_row) (time_window : Q)
  : list window_row :=
  map (fun cur =>
         mk_window (encounter_block cur) (recorded_dttm cur)
                   (max_over time_window vent_data case_imv cur)
                   (max_over time_window vent_data case_mode cur)
                   (max_over time_window vent_data case_fio2 cur)
                   (max_over time_window vent_data case_peep cur))
      vent_data.

(** [x = 1] on a nullable integer, as a [WHERE] condition. *)
Definition is_one (x : option Z) : bool :=
  match x with Some v => v =? 1 | None => false end.

Definition where_clause (r : window_row) : bool :=
  is_one (has_imv_in_window r) && is_one (has_mode_in_window r) &&
  is_one (has_fio2_in_window r) && is_one (has_peep_in_window r).

(** A result row: [(encounter_block, recorded_dttm)]. *)
Definition timepoint : Type := Z * option Z.

Definition timepoint_eq_dec (a b : timepoint) : {a = b} + {a <> b}.
Proof. decide equality; [apply opt_Z_eq_dec | apply Z.eq_dec]. Defined.

(** [ORDER BY encounter_block, recorded_dttm]. *)
Definition timepoint_leb (a b : timepoint) : bool :=
  (fst a <? fst b) || ((fst a =? fst b) && opt_leb (snd a) (snd b)).

Definition find_intubation_times (vent : list vent_row) (time_window : Q)
  : list timepoint :=
  stable_sort timepoint_leb
    (nodup timepoint_eq_dec
       (map (fun r => (w_encounter_block r, w_recorded_dttm r))
            (filter where_clause (time_windows vent time_window)))).

End Helper.

(** ** pandas building blocks *)

(** [astype(int)] on a column that may hold NaN: it raises as soon as one
    value is missing. *)
Fixpoint all_some {A} (l : list (option A)) : option (list A) :=
  match l with
  | [] => Some []
  | None :: _ => None
  | Some x :: l' =>
      match all_some l' with
      | Some xs => Some (x :: xs)
      | None => None
      end
  end.

Section Ranking.
Context {K : Type}.
Variable K_eq_dec : forall a b : K, {a = b} + {a <> b}.
Variable ltb : K -> K -> bool.

(** Number of distinct keys of the table strictly below [k]. *)
Definition count_below (keys : list K) (k : K) : nat :=
  List.length (nodup K_eq_dec (filter (fun k' => ltb k' k) keys)).

(** [groupby(keys).ngroup()]: groups are numbered from 0 in sorted key
    order. *)
Definition ngroup (keys : list K) (k : K) : nat := count_below keys k.

(** [rank(method='dense')]: 1 for the least value, and one more for each
    further distinct value. *)
Definition dense_rank (vals : list K) (v : K) : nat :=
  S (count_below vals v).

(** [drop_duplicates()]: the first occurrence of each row is kept. *)
Fixpoint drop_duplicates_from (seen : list K) (l : list K) : list K :=
  match l with
  | [] => []
  | x :: l' =>
      if in_dec K_eq_dec x seen then drop_duplicates_from seen l'
      else x :: drop_duplicates_from (x :: seen) l'
  end.

Definition drop_duplicates (l : list K) : list K :=
  drop_duplicates_from [] l.
End Ranking.

Definition string_opt_eq_dec (a b : option string) : {a = b} + {a <> b}.
Proof. decide equality. apply string_dec. Defined.

Definition pair_ltb (a b : Z * Z) : bool :=
  (fst a <? fst b) || ((fst a =? fst b) && (snd a <? snd b)).

Definition pair_eq_dec (a b : Z * Z) : {a = b} + {a <> b}.
Proof. decide equality; apply Z.eq_dec. Defined.

Definition group_key_ltb (a b : Z * nat) : bool :=
  (fst a <? fst b) || ((fst a =? fst b) && (snd a <? snd b)%nat).

Definition group_key_leb (a b : Z * nat) : bool :=
  (fst a <? fst b) || ((fst a =? fst b) && (snd a <=? snd b)%nat).

Definition group_key_eq_dec (a b : Z * nat) : {a = b} + {a <> b}.
Proof. decide equality; [apply Nat.eq_dec | apply Z.eq_dec]. Defined.

(** Strict "less than" on rationals. *)
Definition Qlt_bool (a b : Q) : bool :=
  Qnum a * QDen b <? Qnum b * QDen a.

(** [str.lower()] (on the ASCII letters, which is all that matters for a
    comparison with 'icu' and 'stepdown'). *)
Definition lower_ascii (c : ascii) : ascii :=
  let n := nat_of_ascii c in
  if ((65 <=? n) && (n <=? 90))%nat then ascii_of_nat (n + 32) else c.

Fixpoint lower (s : string) : string :=
  match s with
  | EmptyString => EmptyString
  | String c s' => String (lower_ascii c) (lower s')
  end.

(** Aggregation functions of [groupby(...).agg]: they skip nulls. *)
Definition agg_min (l : list Z) : option Z :=
  match l with
  | [] => None
  | x :: l' => Some (fold_left Z.min l' x)
  end.

Definition omax (a b : option Z) : option Z :=
  match a, b with
  | Some x, Some y => Some (Z.max x y)
  | Some x, None => Some x
  | None, _ => b
  end.

Definition agg_max (l : list (option Z)) : option Z :=
  fold_left omax l None.

Definition olast {A} (a b : option A) : option A :=
  match b with
  | Some _ => b
  | None => a
  end.

Definition agg_last {A} (l : list (option A)) : option A :=
  fold_left olast l None.

(** ** src/icu_stitching.py *)
Module IcuStitching.

(** One row of [adt_df]. *)
Record adt_row := mk_adt {
  patient_id : string;
  encounter_block : Z;
  hospitalization_id : string;
  in_dttm : option Z;
  out_dttm : option Z;
  location_category : option string;
  location_type : option string
}.

Definition adt_row_eq_dec (a b : adt_row) : {a = b} + {a <> b}.
Proof.
  decide equality;
    try apply string_opt_eq_dec; try apply opt_Z_eq_dec;
    try apply string_dec; apply Z.eq_dec.
Defined.

(** *** Step 1: filter for ICU/stepdown locations

    [str.lower()] of a null is null, and [isin] of a null is [False]. *)
Definition icu_mask (r : adt_row) : bool :=
  match location_category r with
  | Some c =>
      let c' := lower c in
      String.eqb c' "icu" || String.eqb c' "stepdown"
  | None => false
  end.

(** *** Step 2: initial ICU ranking *)

(** [sort_values(by=['encounter_block', 'in_dttm'])]. *)
Definition adt_leb (a b : adt_row) : bool :=
  (encounter_block a <? encounter_block b) ||
  ((encounter_block a =? encounter_block b) &&
   opt_leb (in_dttm a) (in_dttm b)).

(** A row of [icu_adt]: the ADT row, its [in_dttm] (known to be present
    once the rank has been cast to an integer) and [icu_rank]. *)
Record icu_row := mk_icu {
  adt : adt_row;
  in_t : Z;
  icu_rank : nat
}.

Definition icu_row_eq_dec (a b : icu_row) : {a = b} + {a <> b}.
Proof.
  decide equality;
    [apply Nat.eq_dec | apply Z.eq_dec | apply adt_row_eq_dec].
Defined.

Definition enc (r : icu_row) : Z := encounter_block (adt r).

(** The keys [(encounter_block, in_dttm)] of the rows that have one: a
    row with a null key belongs to no group. *)
Fixpoint in_keys (tbl : list adt_row) : list (Z * Z) :=
  match tbl with
  | [] => []
  | r :: tbl' =>
      match in_dttm r with
      | Some t => (encounter_block r, t) :: in_keys tbl'
      | None => in_keys tbl'
      end
  end.

(** [groupby(['encounter_block', 'in_dttm']).ngroup() + 1]: NaN on a
    row with a null [in_dttm]. *)
Definition ngroup_in (tbl : list adt_row) (r : adt_row) : option nat :=
  match in_dttm r with
  | Some t =>
      Some (S (ngroup pair_eq_dec pair_ltb (in_keys tbl)
                      (encounter_block r, t)))
  | None => None
  end.

(** The non-null values of that column on the rows of encounter [e]. *)
Fixpoint ngroup_in_of (tbl all : list adt_row) (e : Z) : list nat :=
  match all with
  | [] => []
  | r :: all' =>
      if encounter_block r =? e then
        match ngroup_in tbl r with
        | Some v => v :: ngroup_in_of tbl all' e
        | None => ngroup_in_of tbl all' e
        end
      else ngroup_in_of tbl all' e
  end.

(** [groupby('encounter_block')['icu_rank'].rank(method='dense')]
    followed by [.astype(int)]: the cast raises when a rank is NaN. *)
Definition rank_row (tbl : list adt_row) (r : adt_row) : option icu_row :=
  match in_dttm r, ngroup_in tbl r with
  | Some t, Some v =>
      Some (mk_icu r t
              (dense_rank Nat.eq_dec Nat.ltb
                 (ngroup_in_of tbl tbl (encounter_block r)) v))
  | _, _ => None
  end.

Definition initial_rank (icu_adt_df : list adt_row)
  : option (list icu_row) :=
  let sorted := stable_sort adt_leb icu_adt_df in
  all_some (map (rank_row sorted) sorted).

(** *** Step 3: prepare ICU block data *)

(** [sort_values(by=['encounter_block', 'icu_rank'])]. *)
Definition icu_leb (a b : icu_row) : bool :=
  (enc a <? enc b) || ((enc a =? enc b) && (icu_rank a <=? icu_rank b)%nat).

Definition prepare_block (icu_adt : list icu_row) : list icu_row :=
  stable_sort icu_leb (drop_duplicates icu_row_eq_dec icu_adt).

(** *** Step 4: time gap between consecutive ICU stays *)

(** [groupby('encounter_block')['in_dttm'].shift(-1)]: the [in_dttm] of
    the next row of the same encounter, null when there is none. *)
Fixpoint shift_next (l : list icu_row) : list (option Z) :=
  match l with
  | [] => []
  | r :: l' =>
      option_map in_t (find (fun r' => enc r' =? enc r) l')
        :: shift_next l'
  end.

(** [(next_in_dttm - out_dttm).dt.total_seconds() / 3600]. *)
Definition gap_hrs (next_in out : option Z) : option Q :=
  match next_in, out with
  | Some n, Some o => Some (inject_Z (n - o) / secs_per_hour)%Q
  | _, _ => None
  end.

(** *** Step 5: ICU groups *)

(** [out_to_next_icu_hrs < gap_hours]: [False] on NaN. *)
Definition linked (hrs : option Q) (gap_hours : Q) : bool :=
  match hrs with
  | Some h => Qlt_bool h gap_hours
  | None => false
  end.

Record block_row := mk_block {
  icu : icu_row;
  next_in_dttm : option Z;
  out_to_next_icu_hrs : option Q;
  linked6hrs : bool
}.

Definition with_gaps (icu_block : list icu_row) (gap_hours : Q)
  : list block_row :=
  map (fun p : icu_row * option Z =>
         let (r, n) := p in
         let hrs := gap_hrs n (out_dttm (adt r)) in
         mk_block r n hrs (linked hrs gap_hours))
      (combine icu_block (shift_next icu_block)).

Definition block_leb (a b : block_row) : bool := icu_leb (icu a) (icu b).

(** [icu_group = index + 1], kept where the row is not linked
    ([group.where(~linked6hrs)]); paired with the encounter of the row. *)
Fixpoint seed_groups (index : nat) (l : list block_row)
  : list (Z * option nat) :=
  match l with
  | [] => []
  | r :: l' =>
      (enc (icu r), if linked6hrs r then None else Some (S index))
        :: seed_groups (S index) l'
  end.

(** First valid value of encounter [e] in the rest of the column. *)
Fixpoint next_valid (e : Z) (l : list (Z * option nat)) : option nat :=
  match l with
  | [] => None
  | (e', m) :: l' =>
      if e' =? e then
        match m with
        | Some g => Some g
        | None => next_valid e l'
        end
      else next_valid e l'
  end.

(** [bfill()] within each encounter. *)
Fixpoint bfill (l : list (Z * option nat)) : list (Z * option nat) :=
  match l with
  | [] => []
  | (e, m) :: l' =>
      (e, match m with
          | Some g => Some g
          | None => next_valid e l'
          end) :: bfill l'
  end.

(** [ffill()] within each encounter: a backward fill of the column read
    from the bottom. *)
Definition ffill (l : list (Z * option nat)) : list (Z * option nat) :=
  rev (bfill (rev l)).

Record grouped_row := mk_grouped {
  block : block_row;
  icu_group : option nat
}.

Definition g_enc (r : grouped_row) : Z := enc (icu (block r)).

Definition assign_groups (icu_block : list block_row) : list grouped_row :=
  map (fun p : block_row * (Z * option nat) =>
         mk_grouped (fst p) (snd (snd p)))
      (combine icu_block (ffill (bfill (seed_groups 0 icu_block)))).

(** *** Aggregate by ICU group *)

(** Keys of [groupby(['encounter_block', 'icu_group'])]; a row whose
    group is NaN is left out of every group. *)
Fixpoint group_keys (tbl : list grouped_row) : list (Z * nat) :=
  match tbl with
  | [] => []
  | r :: tbl' =>
      match icu_group r with
      | Some g => (g_enc r, g) :: group_keys tbl'
      | None => group_keys tbl'
      end
  end.

Definition in_group (k : Z * nat) (r : grouped_row) : bool :=
  (g_enc r =? fst k) &&
  match icu_group r with
  | Some g => (g =? snd k)%nat
  | None => false
  end.

Record agg_row := mk_agg {
  a_encounter_block : Z;
  a_icu_group : nat;
  a_in_dttm : option Z;
  a_out_dttm : option Z;
  a_location_type : option string
}.

Definition g_in (r : grouped_row) : Z := in_t (icu (block r)).
Definition g_out (r : grouped_row) : option Z :=
  out_dttm (adt (icu (block r))).
Definition g_loc (r : grouped_row) : option string :=
  location_type (adt (icu (block r))).

(** [groupby(...).agg(in_dttm=min, out_dttm=max, location_type=last)
    .reset_index()]: one row per key, in key order; the rows of a group
    are aggregated in table order. *)
Definition aggregate (tbl : list grouped_row) : list agg_row :=
  map (fun k =>
         let members := filter (in_group k) tbl in
         mk_agg (fst k) (snd k)
                (agg_min (map g_in members))
                (agg_max (map g_out members))
                (agg_last (map g_loc members)))
      (stable_sort group_key_leb
         (nodup group_key_eq_dec (group_keys tbl))).

(** *** Merge aggregated data back *)

Record stay_row := mk_stay {
  s_encounter_block : Z;
  s_icu_group : option nat;
  s_icu_rank : nat;
  s_in_dttm : option Z;
  s_out_dttm : option Z;
  s_location_type : option string
}.

Definition key_match (l : grouped_row) (a : agg_row) : bool :=
  (a_encounter_block a =? g_enc l) &&
  match icu_group l with
  | Some g => (a_icu_group a =? g)%nat
  | None => false
  end.

(** [pd.merge(left[['encounter_block', 'icu_group', 'icu_rank']], right,
    on=['encounter_block', 'icu_group'], how='left')]: every left row,
    in order, once per matching right row, or once with nulls when
    nothing matches. *)
Definition merge_left (left : list grouped_row) (right : list agg_row)
  : list stay_row :=
  flat_map
    (fun l =>
       let base := mk_stay (g_enc l) (icu_group l)
                           (icu_rank (icu (block l))) in
       match filter (key_match l) right with
       | [] => [base None None None]
       | ms =>
           map (fun a => base (a_in_dttm a) (a_out_dttm a)
                              (a_location_type a)) ms
       end)
    left.

(** *** Step 6: update ICU rank by ICU group *)

Definition opt_nat_leb (a b : option nat) : bool :=
  match a, b with
  | Some x, Some y => (x <=? y)%nat
  | _, None => true
  | None, Some _ => false
  end.

(** [sort_values(by=['encounter_block', 'icu_rank', 'icu_group'])]. *)
Definition stay_leb (a b : stay_row) : bool :=
  (s_encounter_block a <? s_encounter_block b) ||
  ((s_encounter_block a =? s_encounter_block b) &&
   ((s_icu_rank a <? s_icu_rank b)%nat ||
    ((s_icu_rank a =? s_icu_rank b)%nat &&
     opt_nat_leb (s_icu_group a) (s_icu_group b)))).

Fixpoint stay_keys (tbl : list stay_row) : list (Z * nat) :=
  match tbl with
  | [] => []
  | r :: tbl' =>
      match s_icu_group r with
      | Some g => (s_encounter_block r, g) :: stay_keys tbl'
      | None => stay_keys tbl'
      end
  end.

(** [groupby(['encounter_block', 'icu_group']).ngroup() + 1]. *)
Definition ngroup_stay (tbl : list stay_row) (r : stay_row) : option nat :=
  match s_icu_group r with
  | Some g =>
      Some (S (ngroup group_key_eq_dec group_key_ltb (stay_keys tbl)
                      (s_encounter_block r, g)))
  | None => None
  end.

Fixpoint ngroup_stay_of (tbl all : list stay_row) (e : Z) : list nat :=
  match all with
  | [] => []
  | r :: all' =>
      if s_encounter_block r =? e then
        match ngroup_stay tbl r with
        | Some v => v :: ngroup_stay_of tbl all' e
        | None => ngroup_stay_of tbl all' e
        end
      else ngroup_stay_of tbl all' e
  end.

(** A row of the returned table. *)
Record out_row := mk_out {
  o_encounter_block : Z;
  o_icu_group : nat;
  o_icu_rank : nat;
  o_in_dttm : option Z;
  o_out_dttm : option Z;
  o_location_type : option string
}.

(** [groupby('encounter_block')['icu_rank'].rank(method='dense')
    .astype(int)] on the new [icu_rank]. *)
Definition rerank_row (tbl : list stay_row) (r : stay_row)
  : option out_row :=
  match s_icu_group r, ngroup_stay tbl r with
  | Some g, Some v =>
      Some (mk_out (s_encounter_block r) g
              (dense_rank Nat.eq_dec Nat.ltb
                 (ngroup_stay_of tbl tbl (s_encounter_block r)) v)
              (s_in_dttm r) (s_out_dttm r) (s_location_type r))
  | _, _ => None
  end.

Definition update_rank (icu_df : list stay_row) : option (list out_row) :=
  let icu_adt_final := stable_sort stay_leb icu_df in
  all_some (map (rerank_row icu_adt_final) icu_adt_final).

(** *** The whole function

    [None] stands for a raised exception. *)

(** The table [icu_block] as it stands after line 77. *)
Definition icu_block (adt_df : list adt_row) (gap_hours : Q)
  : option (list grouped_row) :=
  let icu_adt_df := filter icu_mask adt_df in
  match initial_rank icu_adt_df with
  | None => None
  | Some icu_adt =>
      let icu_block := prepare_block icu_adt in
      let icu_block := with_gaps icu_block gap_hours in
      let icu_block := stable_sort block_leb icu_block in
      Some (assign_groups icu_block)
  end.

Definition stitch_icu_stays (adt_df : list adt_row) (gap_hours : Q)
  : option (list out_row) :=
  match icu_block adt_df gap_hours with
  | None => None
  | Some icu_block =>
      let icu_block2 := aggregate icu_block in
      let icu_df := merge_left icu_block icu_block2 in
      update_rank icu_df
  end.

End IcuStitching.

(** * Vocabulary of the properties

    Predicates, closed forms and sample tables used to state and prove the
    properties of the two functions. *)

(** ** For the window scanner *)
Module HelperSpec.
Import Helper.

(** The row [cur] passes the [WHERE] clause of the query. *)
Definition qualifies (vent : list vent_row) (w : Q) (cur : vent_row) : Prop :=
  (exists r, In r vent /\ in_frame w cur r = true /\
             device_category r = Some "IMV"%string) /\
  (exists r, In r vent /\ in_frame w cur r = true /\
             mode_category r <> None) /\
  (exists r, In r vent /\ in_frame w cur r = true /\ fio2_set r <> None) /\
  (exists r, In r vent /\ in_frame w cur r = true /\ peep_set r <> None).

(** The closed window [t - w, t + w], [w] in hours. *)
Definition in_window (w : Q) (t t' : Z) : Prop :=
  (inject_Z t - w * secs_per_hour <= inject_Z t' /\
   inject_Z t' <= inject_Z t + w * secs_per_hour)%Q.


(** Strict order of the result rows, nulls last. *)
Definition timepoint_lt (a b : timepoint) : Prop :=
  fst a < fst b \/
  (fst a = fst b /\
   match snd a, snd b with
   | Some x, Some y => x < y
   | Some _, None => True
   | None, _ => False
   end).

(** Scenario A of the specification: one encounter, a row at 08:00 with
    the device only and a row at 08:30 with mode, FiO2 and PEEP. *)
Definition scenario_a : list vent_row :=
  [ mk_vent 1 (Some 28800) (Some "IMV"%string) None None None;
    mk_vent 1 (Some 30600) None (Some "AC"%string) (Some (1 # 2))
            (Some (5 # 1)) ].

End HelperSpec.

(** ** For the ICU stay stitcher *)
Module StitchSpec.
Import IcuStitching.

(** Order of the block: by encounter, then by [in_dttm]. *)
Definition key_le (a b : icu_row) : Prop :=
  enc a < enc b \/ (enc a = enc b /\ in_t a <= in_t b).

(** [in_dttm] of the row that follows [r] when it belongs to the same
    encounter. *)
Definition next_in (r : icu_row) (rest : list icu_row) : option Z :=
  match rest with
  | b :: _ => if enc b =? enc r then Some (in_t b) else None
  | [] => None
  end.

(** The group of a row (every row of a block the code builds has one). *)
Definition the_group (r : grouped_row) : nat :=
  match icu_group r with
  | Some g => g
  | None => 0
  end.

(** The group of the first row of [rest]. *)
Definition hd_group (d : nat) (rest : list grouped_row) : nat :=
  match rest with
  | x :: _ => the_group x
  | [] => d
  end.

(** The grouped block in closed form: going up the table, a linked row
    takes the group of the row below it, and a row that is not linked
    takes its own position. *)
Fixpoint grouped_from (gap : Q) (index : nat) (l : list icu_row)
  : list grouped_row :=
  match l with
  | [] => []
  | r :: l' =>
      let rest := grouped_from gap (S index) l' in
      let n := next_in r l' in
      let hrs := gap_hrs n (out_dttm (adt r)) in
      let lk := linked hrs gap in
      mk_grouped (mk_block r n hrs lk)
                 (Some (if lk then hd_group (S index) rest else S index))
        :: rest
  end.

(** The aggregation key [(encounter_block, icu_group)] of a row. *)
Definition key_of (x : grouped_row) : Z * nat := (g_enc x, the_group x).

(** A table in which every row has a group. *)
Definition grouped (G : list grouped_row) : Prop :=
  forall x, In x G -> icu_group x = Some (the_group x).

(** The member segments of the group with key [k], in rank order. *)
Definition members (G : list grouped_row) (k : Z * nat)
  : list grouped_row := filter (in_group k) G.

(** The row of [icu_block2] for the key [k]. *)
Definition agg_of (G : list grouped_row) (k : Z * nat) : agg_row :=
  mk_agg (fst k) (snd k)
         (agg_min (map g_in (members G k)))
         (agg_max (map g_out (members G k)))
         (agg_last (map g_loc (members G k))).

(** The row of the merged table [icu_df] for a row of [icu_block]. *)
Definition stay_of (G : list grouped_row) (x : grouped_row) : stay_row :=
  mk_stay (g_enc x) (icu_group x) (icu_rank (icu (block x)))
          (a_in_dttm (agg_of G (key_of x)))
          (a_out_dttm (agg_of G (key_of x)))
          (a_location_type (agg_of G (key_of x))).

(** The returned row of a row of [icu_block]. *)
Definition out_row_of (G : list grouped_row) (x : grouped_row) : out_row :=
  let icu_df := map (stay_of G) G in
  mk_out (g_enc x) (the_group x)
         (dense_rank Nat.eq_dec Nat.ltb
            (ngroup_stay_of icu_df icu_df (g_enc x))
            (S (ngroup group_key_eq_dec group_key_ltb
                       (stay_keys icu_df) (key_of x))))
         (a_in_dttm (agg_of G (key_of x)))
         (a_out_dttm (agg_of G (key_of x)))
         (a_location_type (agg_of G (key_of x))).

(** The link flag of a row that is followed by [b]. *)
Definition link_to (gap : Q) (a b : grouped_row) : bool :=
  linked (gap_hrs (if g_enc b =? g_enc a then Some (g_in b) else None)
                  (g_out a)) gap.

(** The order of the block, on grouped rows. *)
Definition g_key_le (a b : grouped_row) : Prop :=
  g_enc a < g_enc b \/ (g_enc a = g_enc b /\ g_in a <= g_in b).

(** Scenario B of the specification: two ICU segments of one encounter,
    08:00-10:00 and 10:05-12:00. *)
Definition scenario_b : list adt_row :=
  [ mk_adt "P1" 1 "H1" (Some 28800) (Some 36000) (Some "ICU")
           (Some "micu");
    mk_adt "P1" 1 "H1" (Some 36300) (Some 43200) (Some "icu")
           (Some "sicu") ]%string.




(** The value of [ngroup() + 1] on a row of the merged table. *)
Definition group_number (G : list grouped_row) (x : grouped_row) : nat :=
  S (ngroup group_key_eq_dec group_key_ltb (map key_of G) (key_of x)).

(** A segment inside a longer one: 00:00-100:00, then 01:00-02:00 and
    10:00-11:00 (hours of one encounter, in seconds). *)
Definition nested_segments : list adt_row :=
  [ mk_adt "P1" 1 "H1" (Some 0) (Some 360000) (Some "ICU") (Some "A");
    mk_adt "P1" 1 "H1" (Some 3600) (Some 7200) (Some "ICU") (Some "B");
    mk_adt "P1" 1 "H1" (Some 36000) (Some 39600) (Some "ICU") (Some "C")
  ]%string.

(** Retained rows have both timestamps, in order. *)
Definition well_formed (adt_df : list adt_row) : Prop :=
  forall r, In r adt_df -> icu_mask r = true ->
            exists i o, in_dttm r = Some i /\ out_dttm r = Some o /\ i <= o.

(** Within an encounter, a retained segment that starts no later
    than another ends no later than it. *)
Definition ends_in_order (adt_df : list adt_row) : Prop :=
  forall r r' i i' o o',
    In r adt_df -> In r' adt_df ->
    icu_mask r = true -> icu_mask r' = true ->
    encounter_block r = encounter_block r' ->
    in_dttm r = Some i -> in_dttm r' = Some i' ->
    out_dttm r = Some o -> out_dttm r' = Some o' ->
    i <= i' -> o <= o'.

(** Two encounters with one ICU stay each; the stay of encounter 1 has
    not ended: its [out_dttm] is null. *)
Definition open_stay : list adt_row :=
  [ mk_adt "P1" 1 "H1" (Some 0) None (Some "ICU") (Some "micu");
    mk_adt "P2" 2 "H2" (Some 0) (Some 3600) (Some "ICU") (Some "sicu")
  ]%string.

End StitchSpec.

(** * Facts about stable sorting *)
Section StableSortFacts.
Context {A : Type}.
Variable leb : A -> A -> bool.

Lemma insert_sorted_perm x l : Permutation (insert_sorted leb x l) (x :: l).
Proof.
  induction l as [|y l IH]; simpl; [reflexivity|].
  destruct (leb x y); [reflexivity|].
  rewrite IH. apply perm_swap.
Qed.

Lemma stable_sort_perm l : Permutation (stable_sort leb l) l.
Proof.
  induction l as [|x l IH]; simpl; [constructor|].
  rewrite insert_sorted_perm. now constructor.
Qed.

Lemma stable_sort_In x l : In x (stable_sort leb l) <-> In x l.
Proof.
  split; apply Permutation_in;
    [apply stable_sort_perm | symmetry; apply stable_sort_perm].
Qed.

Lemma stable_sort_length l : length (stable_sort leb l) = length l.
Proof. apply Permutation_length, stable_sort_perm. Qed.

Hypothesis leb_total : forall a b, leb a b = true \/ leb b a = true.
Hypothesis leb_trans :
  forall a b c, leb a b = true -> leb b c = true -> leb a c = true.

Lemma insert_sorted_sorted x l :
  StronglySorted (lebP leb) l -> StronglySorted (lebP leb) (insert_sorted leb x l).
Proof.
  induction 1 as [|y l Hs IH Hall]; simpl.
  - repeat constructor.
  - destruct (leb x y) eqn:E.
    + constructor; [constructor; assumption|].
      constructor; [exact E|].
      eapply Forall_impl; [|exact Hall].
      intros z Hz. eapply leb_trans; eassumption.
    + constructor; [exact IH|].
      assert (Hyx : leb y x = true)
        by (destruct (leb_total x y) as [H'|H']; congruence).
      rewrite Forall_forall in *. intros z Hz.
      apply (Permutation_in _ (insert_sorted_perm x l)) in Hz.
      destruct Hz as [<-|Hz]; auto.
Qed.

Lemma stable_sort_sorted l : StronglySorted (lebP leb) (stable_sort leb l).
Proof.
  induction l as [|x l IH]; simpl; [constructor|].
  now apply insert_sorted_sorted.
Qed.

(** Sorting a table that is already in order leaves it as it is. *)
Lemma stable_sort_id l : StronglySorted (lebP leb) l -> stable_sort leb l = l.
Proof.
  induction 1 as [|x l Hs IH Hall]; simpl; [reflexivity|].
  rewrite IH. destruct l as [|y l']; simpl; [reflexivity|].
  inversion Hall as [|? ? Hxy _]; subst. unfold lebP in Hxy.
  now rewrite Hxy.
Qed.
End StableSortFacts.

(** Strict order on a sorted table without repeated rows. *)
Lemma sorted_nodup_strict {A} (leb : A -> A -> bool) (l : list A) :
  StronglySorted (lebP leb) l -> NoDup l ->
  StronglySorted (fun a b => leb a b = true /\ a <> b) l.
Proof.
  induction 1 as [|x l Hs IH Hall]; intros Hnd; [constructor|].
  inversion Hnd as [|? ? Hnotin Hnd']; subst.
  constructor; [auto|].
  rewrite Forall_forall in *. intros y Hy. split; [now apply Hall|].
  intros ->. contradiction.
Qed.

(** * Facts about group numbers and dense ranks *)
Section RankingFacts.
Context {K : Type}.
Variable K_eq_dec : forall a b : K, {a = b} + {a <> b}.
Variable ltb : K -> K -> bool.
Hypothesis ltb_irrefl : forall a, ltb a a = false.
Hypothesis ltb_trans :
  forall a b c, ltb a b = true -> ltb b c = true -> ltb a c = true.
Hypothesis ltb_total : forall a b, a <> b -> ltb a b = true \/ ltb b a = true.

Local Abbreviation below keys k :=
  (nodup K_eq_dec (filter (fun k' => ltb k' k) keys)).

Lemma in_below keys k x :
  In x (below keys k) <-> In x keys /\ ltb x k = true.
Proof. now rewrite nodup_In, filter_In. Qed.

Lemma count_below_mono keys a b :
  ltb a b = true \/ a = b ->
  (count_below K_eq_dec ltb keys a <= count_below K_eq_dec ltb keys b)%nat.
Proof.
  intros Hab. unfold count_below.
  apply NoDup_incl_length; [apply NoDup_nodup|].
  intros x Hx. apply in_below in Hx. apply in_below.
  destruct Hx as [Hin Hxa]. split; [exact Hin|].
  destruct Hab as [Hab| <-]; eauto.
Qed.

Lemma count_below_strict keys a b :
  In a keys -> ltb a b = true ->
  (count_below K_eq_dec ltb keys a < count_below K_eq_dec ltb keys b)%nat.
Proof.
  intros Ha Hab. unfold count_below.
  change (List.length (a :: below keys a) <= List.length (below keys b))%nat.
  apply NoDup_incl_length.
  - constructor; [|apply NoDup_nodup].
    rewrite in_below. intros [_ H]. now rewrite ltb_irrefl in H.
  - intros x [<-|Hx]; apply in_below; [now split|].
    apply in_below in Hx. destruct Hx. eauto.
Qed.

Lemma count_below_lt_iff keys a b :
  In a keys -> In b keys ->
  ((count_below K_eq_dec ltb keys a < count_below K_eq_dec ltb keys b)%nat
   <-> ltb a b = true).
Proof.
  intros Ha Hb. split; [|now apply count_below_strict].
  intros Hlt. destruct (K_eq_dec a b) as [->|Hne]; [lia|].
  destruct (ltb_total a b Hne) as [H|H]; [exact H|].
  pose proof (count_below_strict keys b a Hb H). lia.
Qed.

Lemma count_below_inj keys a b :
  In a keys -> In b keys ->
  count_below K_eq_dec ltb keys a = count_below K_eq_dec ltb keys b ->
  a = b.
Proof.
  intros Ha Hb Heq. destruct (K_eq_dec a b) as [->|Hne]; [reflexivity|].
  destruct (ltb_total a b Hne) as [H|H].
  - pose proof (count_below_strict keys a b Ha H). lia.
  - pose proof (count_below_strict keys b a Hb H). lia.
Qed.

Lemma count_below_bound keys a :
  In a keys ->
  (count_below K_eq_dec ltb keys a < List.length (nodup K_eq_dec keys))%nat.
Proof.
  intros Ha. unfold count_below.
  change (List.length (a :: below keys a)
          <= List.length (nodup K_eq_dec keys))%nat.
  apply NoDup_incl_length.
  - constructor; [|apply NoDup_nodup].
    rewrite in_below. intros [_ H]. now rewrite ltb_irrefl in H.
  - intros x [<-|Hx]; apply nodup_In; [exact Ha|].
    apply in_below in Hx. tauto.
Qed.

(** Every number below the number of distinct keys is the number of
    some key: the numbering has no gap. *)
Lemma count_below_onto keys n :
  (n < List.length (nodup K_eq_dec keys))%nat ->
  exists a, In a keys /\ count_below K_eq_dec ltb keys a = n.
Proof.
  intros Hn.
  set (ks := nodup K_eq_dec keys) in *.
  set (ranks := map (count_below K_eq_dec ltb keys) ks).
  assert (Hnd : NoDup ranks).
  { unfold ranks. apply Finite.Injective_map_NoDup_in.
    - intros a b Ha Hb. apply count_below_inj;
        [apply (nodup_In K_eq_dec), Ha | apply (nodup_In K_eq_dec), Hb].
    - apply NoDup_nodup. }
  assert (Hincl : incl ranks (seq 0 (List.length ks))).
  { intros r Hr. unfold ranks in Hr. apply in_map_iff in Hr.
    destruct Hr as (a & <- & Ha). apply in_seq. split; [lia|]. simpl.
    apply count_below_bound. apply (nodup_In K_eq_dec), Ha. }
  assert (Hrev : incl (seq 0 (List.length ks)) ranks).
  { apply NoDup_length_incl; [exact Hnd | | exact Hincl].
    unfold ranks. now rewrite length_map, length_seq. }
  assert (Hin : In n ranks) by (apply Hrev, in_seq; lia).
  unfold ranks in Hin. apply in_map_iff in Hin.
  destruct Hin as (a & Ha & Hin). exists a. split; [|exact Ha].
  apply (nodup_In K_eq_dec), Hin.
Qed.

Lemma drop_duplicates_from_In seen l x :
  In x (drop_duplicates_from K_eq_dec seen l) <-> In x l /\ ~ In x seen.
Proof.
  revert seen. induction l as [|y l IH]; intros seen; simpl.
  - tauto.
  - destruct (in_dec K_eq_dec y seen) as [Hy|Hy].
    + rewrite IH. split; [tauto|].
      intros [[<-|H] Hn]; [contradiction | tauto].
    + simpl. rewrite IH. simpl. split.
      * intros [<-|[H Hn]]; [tauto|]. tauto.
      * intros [[<-|H] Hn]; [now left|].
        destruct (K_eq_dec y x) as [->|Hne]; [now left|].
        right. split; [exact H|]. intros [?|?]; contradiction.
Qed.

Lemma drop_duplicates_In l x :
  In x (drop_duplicates K_eq_dec l) <-> In x l.
Proof. unfold drop_duplicates. rewrite drop_duplicates_from_In. simpl. tauto. Qed.

Lemma drop_duplicates_from_NoDup seen l :
  NoDup (drop_duplicates_from K_eq_dec seen l).
Proof.
  revert seen. induction l as [|y l IH]; intros seen; simpl.
  - constructor.
  - destruct (in_dec K_eq_dec y seen) as [Hy|Hy]; [apply IH|].
    constructor; [|apply IH].
    rewrite drop_duplicates_from_In. simpl. tauto.
Qed.

Lemma drop_duplicates_NoDup l : NoDup (drop_duplicates K_eq_dec l).
Proof. apply drop_duplicates_from_NoDup. Qed.
End RankingFacts.

(** * Properties of the window scanner *)
Module HelperFacts.
Import Helper HelperSpec.

Lemma fold_max_flag (l : list Z) (x : Z) :
  (x = 0 \/ x = 1) -> (forall y, In y l -> y = 0 \/ y = 1) ->
  (fold_left Z.max l x = 1 <-> x = 1 \/ In 1 l).
Proof.
  revert x. induction l as [|y l IH]; intros x Hx Hl; simpl.
  - tauto.
  - rewrite IH.
    + assert (Hy : y = 0 \/ y = 1) by (apply Hl; now left).
      split.
      * intros [H|H]; [|tauto]. lia.
      * intros [H|[H|H]]; [left; lia | left; lia | tauto].
    + assert (Hy : y = 0 \/ y = 1) by (apply Hl; now left). lia.
    + intros z Hz. apply Hl. now right.
Qed.

Lemma sql_max_flag (l : list Z) :
  (forall y, In y l -> y = 0 \/ y = 1) ->
  (is_one (sql_max l) = true <-> In 1 l).
Proof.
  destruct l as [|x l]; intros Hl; simpl.
  - split; [discriminate | tauto].
  - rewrite Z.eqb_eq, fold_max_flag.
    + split; intros [H|H]; auto.
    + apply Hl. now left.
    + intros y Hy. apply Hl. now right.
Qed.

(** A window aggregate is 1 exactly when some row of the frame has the
    signal. *)
Lemma max_over_flag w vent (expr : vent_row -> Z) cur :
  (forall r, expr r = 0 \/ expr r = 1) ->
  (is_one (max_over w vent expr cur) = true <->
   exists r, In r vent /\ in_frame w cur r = true /\ expr r = 1).
Proof.
  intros Hexpr. unfold max_over. rewrite sql_max_flag.
  - rewrite in_map_iff. split.
    + intros (r & Hr & Hin). apply filter_In in Hin. now exists r.
    + intros (r & Hin & Hf & Hr). exists r. split; [exact Hr|].
      apply filter_In. now split.
  - intros y Hy. apply in_map_iff in Hy. destruct Hy as (r & <- & _).
    apply Hexpr.
Qed.

Lemma case_imv_flag r : case_imv r = 0 \/ case_imv r = 1.
Proof.
  unfold case_imv. destruct (device_category r) as [d|]; [|now left].
  destruct (String.eqb d "IMV"); auto.
Qed.

Lemma case_mode_flag r : case_mode r = 0 \/ case_mode r = 1.
Proof. unfold case_mode. destruct (is_not_null _); auto. Qed.

Lemma case_fio2_flag r : case_fio2 r = 0 \/ case_fio2 r = 1.
Proof. unfold case_fio2. destruct (is_not_null _); auto. Qed.

Lemma case_peep_flag r : case_peep r = 0 \/ case_peep r = 1.
Proof. unfold case_peep. destruct (is_not_null _); auto. Qed.

Lemma case_imv_one r : case_imv r = 1 <-> device_category r = Some "IMV"%string.
Proof.
  unfold case_imv. destruct (device_category r) as [d|].
  - destruct (String.eqb d "IMV") eqn:E.
    + apply String.eqb_eq in E. subst. tauto.
    + apply String.eqb_neq in E. split; [discriminate|].
      intros [= ->]. contradiction.
  - split; discriminate.
Qed.

Lemma not_null_one {A} (x : option A) :
  (if is_not_null x then 1 else 0) = 1 <-> x <> None.
Proof. destruct x; simpl; split; try discriminate; congruence. Qed.

Lemma find_intubation_times_In vent w (p : timepoint) :
  In p (find_intubation_times vent w) <->
  exists cur, In cur vent /\
              p = (encounter_block cur, recorded_dttm cur) /\
              qualifies vent w cur.
Proof.
  unfold find_intubation_times.
  rewrite stable_sort_In, nodup_In, in_map_iff.
  split.
  - intros (wr & <- & Hwr). apply filter_In in Hwr.
    destruct Hwr as [Hwr Hwhere]. unfold time_windows in Hwr.
    apply in_map_iff in Hwr. destruct Hwr as (cur & <- & Hcur).
    exists cur. split; [exact Hcur|]. split; [reflexivity|].
    unfold where_clause in Hwhere. simpl in Hwhere.
    repeat rewrite andb_true_iff in Hwhere.
    destruct Hwhere as [[[H1 H2] H3] H4].
    rewrite max_over_flag in H1, H2, H3, H4
      by auto using case_imv_flag, case_mode_flag, case_fio2_flag,
                    case_peep_flag.
    unfold qualifies.
    setoid_rewrite case_imv_one in H1.
    unfold case_mode in H2. unfold case_fio2 in H3. unfold case_peep in H4.
    setoid_rewrite not_null_one in H2.
    setoid_rewrite not_null_one in H3.
    setoid_rewrite not_null_one in H4.
    tauto.
  - intros (cur & Hcur & -> & H1 & H2 & H3 & H4).
    exists (mk_window (encounter_block cur) (recorded_dttm cur)
              (max_over w vent case_imv cur)
              (max_over w vent case_mode cur)
              (max_over w vent case_fio2 cur)
              (max_over w vent case_peep cur)).
    split; [reflexivity|]. apply filter_In. split.
    + unfold time_windows. apply in_map_iff. now exists cur.
    + unfold where_clause. simpl. repeat rewrite andb_true_iff.
      rewrite !max_over_flag
        by auto using case_imv_flag, case_mode_flag, case_fio2_flag,
                      case_peep_flag.
      setoid_rewrite case_imv_one.
      unfold case_mode, case_fio2, case_peep.
      setoid_rewrite not_null_one. tauto.
Qed.

Lemma in_range_iff w t t' : in_range w t t' = true <-> in_window w t t'.
Proof.
  unfold in_range, in_window. now rewrite andb_true_iff, !Qle_bool_iff.
Qed.


Lemma timepoint_leb_total a b :
  timepoint_leb a b = true \/ timepoint_leb b a = true.
Proof.
  unfold timepoint_leb, opt_leb. destruct a as [e [t|]], b as [e' [t'|]];
    simpl; rewrite ?orb_true_iff, ?andb_true_iff, ?Z.ltb_lt, ?Z.eqb_eq,
           ?Z.leb_le; lia.
Qed.

Lemma timepoint_leb_trans a b c :
  timepoint_leb a b = true -> timepoint_leb b c = true ->
  timepoint_leb a c = true.
Proof.
  unfold timepoint_leb, opt_leb.
  destruct a as [e [t|]], b as [e' [t'|]], c as [e'' [t''|]];
    simpl; rewrite ?orb_true_iff, ?andb_true_iff, ?Z.ltb_lt, ?Z.eqb_eq,
           ?Z.leb_le; try lia; intuition (try discriminate; try lia).
Qed.

Lemma timepoint_leb_lt a b :
  timepoint_leb a b = true /\ a <> b -> timepoint_lt a b.
Proof.
  unfold timepoint_leb, timepoint_lt, opt_leb.
  destruct a as [e [t|]], b as [e' [t'|]]; simpl;
    rewrite ?orb_true_iff, ?andb_true_iff, ?Z.ltb_lt, ?Z.eqb_eq, ?Z.leb_le;
    intros [H Hne].
  - destruct H as [H|[-> H]]; [now left|]. right. split; [reflexivity|].
    assert (t <> t') by congruence. lia.
  - destruct H as [H|[-> H]]; auto.
  - destruct H as [H|[-> H]]; [now left | discriminate].
  - destruct H as [H|[-> H]]; [now left | congruence].
Qed.

Lemma find_intubation_times_sorted vent w :
  StronglySorted timepoint_lt (find_intubation_times vent w).
Proof.
  unfold find_intubation_times.
  set (l := nodup _ _).
  assert (Hs : StronglySorted
                 (fun a b => timepoint_leb a b = true /\ a <> b)
                 (stable_sort timepoint_leb l)).
  { apply sorted_nodup_strict.
    - apply stable_sort_sorted;
        [exact timepoint_leb_total | exact timepoint_leb_trans].
    - eapply Permutation_NoDup;
        [symmetry; apply stable_sort_perm | apply NoDup_nodup]. }
  revert Hs. generalize (stable_sort timepoint_leb l). intros l'.
  induction 1 as [|a l'' Hs IH Hall]; constructor; auto.
  eapply Forall_impl; [|exact Hall]. intros b. apply timepoint_leb_lt.
Qed.

Lemma find_intubation_times_NoDup vent w :
  NoDup (find_intubation_times vent w).
Proof.
  unfold find_intubation_times.
  eapply Permutation_NoDup;
    [symmetry; apply stable_sort_perm | apply NoDup_nodup].
Qed.

(** Scenario A: each of the two rows finds the signals of the other
    within one hour. *)
Example scenario_a_both :
  find_intubation_times scenario_a 1 = [(1, Some 28800); (1, Some 30600)].
Proof. vm_compute. reflexivity. Qed.











End HelperFacts.

(** * Properties of the ICU stay stitcher *)
Module StitchFacts.
Import IcuStitching StitchSpec.

(** ** Order facts on the grouping keys *)

Lemma pair_ltb_irrefl a : pair_ltb a a = false.
Proof.
  unfold pair_ltb. rewrite !Z.ltb_irrefl, Z.eqb_refl. reflexivity.
Qed.

Lemma pair_ltb_spec a b :
  pair_ltb a b = true <->
  fst a < fst b \/ (fst a = fst b /\ snd a < snd b).
Proof.
  unfold pair_ltb.
  now rewrite orb_true_iff, andb_true_iff, !Z.ltb_lt, Z.eqb_eq.
Qed.

Lemma pair_ltb_trans a b c :
  pair_ltb a b = true -> pair_ltb b c = true -> pair_ltb a c = true.
Proof. rewrite !pair_ltb_spec. lia. Qed.

Lemma pair_ltb_total (a b : Z * Z) :
  a <> b -> pair_ltb a b = true \/ pair_ltb b a = true.
Proof.
  rewrite !pair_ltb_spec. destruct a as [a1 a2], b as [b1 b2]. simpl.
  intros Hne.
  assert (a1 <> b1 \/ a2 <> b2).
  { destruct (Z.eq_dec a1 b1) as [->|]; [|now left].
    right. congruence. }
  lia.
Qed.

Lemma group_key_ltb_spec a b :
  group_key_ltb a b = true <->
  fst a < fst b \/ (fst a = fst b /\ (snd a < snd b)%nat).
Proof.
  unfold group_key_ltb.
  now rewrite orb_true_iff, andb_true_iff, Z.ltb_lt, Z.eqb_eq, Nat.ltb_lt.
Qed.

Lemma group_key_ltb_irrefl a : group_key_ltb a a = false.
Proof.
  unfold group_key_ltb.
  rewrite Z.ltb_irrefl, Z.eqb_refl, Nat.ltb_irrefl. reflexivity.
Qed.

Lemma group_key_ltb_trans a b c :
  group_key_ltb a b = true -> group_key_ltb b c = true ->
  group_key_ltb a c = true.
Proof. rewrite !group_key_ltb_spec. lia. Qed.

Lemma group_key_ltb_total (a b : Z * nat) :
  a <> b -> group_key_ltb a b = true \/ group_key_ltb b a = true.
Proof.
  rewrite !group_key_ltb_spec. destruct a as [a1 a2], b as [b1 b2]. simpl.
  intros Hne.
  assert (a1 <> b1 \/ a2 <> b2).
  { destruct (Z.eq_dec a1 b1) as [->|]; [|now left].
    right. congruence. }
  lia.
Qed.

Lemma nat_ltb_trans a b c :
  (a <? b)%nat = true -> (b <? c)%nat = true -> (a <? c)%nat = true.
Proof. rewrite !Nat.ltb_lt. lia. Qed.

Lemma nat_ltb_total (a b : nat) :
  a <> b -> (a <? b)%nat = true \/ (b <? a)%nat = true.
Proof. rewrite !Nat.ltb_lt. lia. Qed.

(** Dense ranks compare as the values they rank. *)
Lemma dense_rank_lt_iff vals a b :
  In a vals -> In b vals ->
  ((dense_rank Nat.eq_dec Nat.ltb vals a
    < dense_rank Nat.eq_dec Nat.ltb vals b)%nat <-> (a < b)%nat).
Proof.
  intros Ha Hb. unfold dense_rank.
  rewrite <- Nat.succ_lt_mono.
  rewrite (count_below_lt_iff Nat.eq_dec Nat.ltb Nat.ltb_irrefl
             nat_ltb_trans nat_ltb_total vals a b Ha Hb).
  apply Nat.ltb_lt.
Qed.

(** ** [astype(int)] *)

Lemma all_some_Forall2 {A B} (f : A -> option B) l l' :
  all_some (map f l) = Some l' ->
  Forall2 (fun x y => f x = Some y) l l'.
Proof.
  revert l'. induction l as [|x l IH]; intros l'; simpl.
  - intros [= <-]. constructor.
  - destruct (f x) as [y|] eqn:E; [|discriminate].
    destruct (all_some (map f l)) as [ys|]; [|discriminate].
    intros [= <-]. constructor; auto.
Qed.

Lemma all_some_total {A B} (f : A -> option B) (g : A -> B) l :
  (forall x, In x l -> f x = Some (g x)) ->
  all_some (map f l) = Some (map g l).
Proof.
  induction l as [|x l IH]; intros H; simpl; [reflexivity|].
  rewrite (H x) by now left.
  rewrite IH by (intros y Hy; apply H; now right). reflexivity.
Qed.

Lemma all_some_none {A B} (f : A -> option B) l :
  all_some (map f l) = None <-> exists x, In x l /\ f x = None.
Proof.
  induction l as [|x l IH]; simpl.
  - split; [discriminate | intros (x & [] & _)].
  - destruct (f x) as [y|] eqn:E.
    + destruct (all_some (map f l)) as [ys|].
      * split; [discriminate|].
        intros (z & [<-|Hz] & Hn); [congruence|].
        assert (H : @None (list B) = None) by reflexivity.
        destruct IH as [_ IH]. discriminate IH. eauto.
      * split; [|reflexivity]. intros _.
        destruct IH as [IH _]. destruct (IH eq_refl) as (z & Hz & Hn).
        eauto.
    + split; [|reflexivity]. intros _. exists x. auto.
Qed.

Lemma Forall2_In_r {A B} (R : A -> B -> Prop) l l' y :
  Forall2 R l l' -> In y l' -> exists x, In x l /\ R x y.
Proof.
  induction 1 as [|x y' l l' Hxy Hf IH]; simpl; [tauto|].
  intros [<-|Hy]; [eauto|].
  destruct (IH Hy) as (x' & ? & ?). eauto.
Qed.

Lemma StronglySorted_impl_in {A} (R R' : A -> A -> Prop) l :
  (forall a b, In a l -> In b l -> R a b -> R' a b) ->
  StronglySorted R l -> StronglySorted R' l.
Proof.
  intros Himp Hs. induction Hs as [|x l Hs IH Hall]; constructor.
  - apply IH. intros a b Ha Hb. apply Himp; now right.
  - rewrite Forall_forall in *. intros y Hy.
    apply Himp; [now left | now right | now apply Hall].
Qed.

Lemma StronglySorted_map {A B} (f : A -> B) (R : B -> B -> Prop) l :
  StronglySorted R (map f l) <->
  StronglySorted (fun a b => R (f a) (f b)) l.
Proof.
  induction l as [|x l IH]; simpl.
  - split; constructor.
  - split; intros H; inversion H as [|? ? Hs Hall]; subst;
      constructor; try (now apply IH).
    + rewrite Forall_forall in *. intros y Hy. apply Hall.
      now apply in_map.
    + rewrite Forall_forall in *. intros y Hy.
      apply in_map_iff in Hy. destruct Hy as (z & <- & Hz). now apply Hall.
Qed.

Lemma StronglySorted_app_inv {A} (R : A -> A -> Prop) l1 l2 :
  StronglySorted R (l1 ++ l2) ->
  StronglySorted R l1 /\ StronglySorted R l2 /\
  (forall a b, In a l1 -> In b l2 -> R a b).
Proof.
  induction l1 as [|x l1 IH]; simpl; intros H.
  - repeat split; [constructor | exact H | intros ? ? []].
  - inversion H as [|? ? Hs Hall]; subst.
    destruct (IH Hs) as (H1 & H2 & H3).
    rewrite Forall_forall in Hall.
    repeat split; [|exact H2|].
    + constructor; [exact H1|]. rewrite Forall_forall. intros y Hy.
      apply Hall, in_or_app. now left.
    + intros a b [<-|Ha] Hb; [|now apply H3].
      apply Hall, in_or_app. now right.
Qed.

(** ** Step 2: the initial rank *)

Lemma in_keys_In tbl e t :
  In (e, t) (in_keys tbl) <->
  exists r, In r tbl /\ encounter_block r = e /\ in_dttm r = Some t.
Proof.
  induction tbl as [|r tbl IH]; simpl.
  - split; [tauto | intros (r & [] & _)].
  - destruct (in_dttm r) as [t'|] eqn:E; simpl; rewrite IH; split.
    + intros [[= <- <-]|(r' & ? & ? & ?)]; eauto 6.
    + intros (r' & [<-|Hr'] & He & Ht); [left; congruence | eauto 6].
    + intros (r' & ? & ? & ?). eauto 6.
    + intros (r' & [<-|Hr'] & He & Ht); [congruence | eauto 6].
Qed.

Lemma ngroup_in_of_In tbl all e v :
  In v (ngroup_in_of tbl all e) <->
  exists r, In r all /\ encounter_block r = e /\ ngroup_in tbl r = Some v.
Proof.
  induction all as [|r all IH]; simpl.
  - split; [tauto | intros (r & [] & _)].
  - destruct (encounter_block r =? e) eqn:Ee.
    + apply Z.eqb_eq in Ee.
      destruct (ngroup_in tbl r) as [v'|] eqn:E; simpl; rewrite IH; split.
      * intros [<-|(r' & ? & ? & ?)]; eauto 6.
      * intros (r' & [<-|Hr'] & He & Hv); [left; congruence | eauto 6].
      * intros (r' & ? & ? & ?). eauto 6.
      * intros (r' & [<-|Hr'] & He & Hv); [congruence | eauto 6].
    + apply Z.eqb_neq in Ee. rewrite IH. split.
      * intros (r' & ? & ? & ?). eauto 6.
      * intros (r' & [<-|Hr'] & He & Hv); [congruence | eauto 6].
Qed.

Lemma rank_row_inv tbl a r :
  rank_row tbl a = Some r ->
  adt r = a /\ in_dttm a = Some (in_t r) /\
  icu_rank r =
    dense_rank Nat.eq_dec Nat.ltb
      (ngroup_in_of tbl tbl (encounter_block a))
      (S (ngroup pair_eq_dec pair_ltb (in_keys tbl)
                 (encounter_block a, in_t r))).
Proof.
  unfold rank_row, ngroup_in.
  destruct (in_dttm a) as [t|]; [|discriminate].
  intros [= <-]. simpl. auto.
Qed.

(** Within an encounter the initial rank orders rows as [in_dttm]
    does. *)
Lemma rank_row_order tbl a1 a2 r1 r2 :
  In a1 tbl -> In a2 tbl ->
  rank_row tbl a1 = Some r1 -> rank_row tbl a2 = Some r2 ->
  enc r1 = enc r2 ->
  ((icu_rank r1 <= icu_rank r2)%nat <-> in_t r1 <= in_t r2).
Proof.
  intros Hin1 Hin2 H1 H2 He.
  apply rank_row_inv in H1. destruct H1 as (Ha1 & Ht1 & Hr1).
  apply rank_row_inv in H2. destruct H2 as (Ha2 & Ht2 & Hr2).
  unfold enc in He. rewrite Ha1, Ha2 in He.
  rewrite Hr1, Hr2, <- He.
  set (e := encounter_block a1) in *.
  set (keys := in_keys tbl).
  assert (Hk1 : In (e, in_t r1) keys)
    by (apply in_keys_In; exists a1; auto).
  assert (Hk2 : In (e, in_t r2) keys)
    by (apply in_keys_In; exists a2; auto).
  set (v1 := S (ngroup pair_eq_dec pair_ltb keys (e, in_t r1))).
  set (v2 := S (ngroup pair_eq_dec pair_ltb keys (e, in_t r2))).
  assert (Hv1 : In v1 (ngroup_in_of tbl tbl e)).
  { apply ngroup_in_of_In. exists a1.
    split; [exact Hin1|]. split; [reflexivity|].
    unfold ngroup_in. now rewrite Ht1. }
  assert (Hv2 : In v2 (ngroup_in_of tbl tbl e)).
  { apply ngroup_in_of_In. exists a2.
    split; [exact Hin2|]. split; [now symmetry|].
    unfold ngroup_in. now rewrite Ht2, <- He. }
  pose proof (dense_rank_lt_iff _ v2 v1 Hv2 Hv1) as Hd.
  pose proof (count_below_lt_iff pair_eq_dec pair_ltb pair_ltb_irrefl
                pair_ltb_trans pair_ltb_total keys _ _ Hk2 Hk1) as Hc.
  rewrite pair_ltb_spec in Hc. simpl in Hc.
  unfold v1, v2, ngroup in Hd.
  split; intros H.
  - destruct (Z_le_gt_dec (in_t r1) (in_t r2)) as [Hle|Hgt]; [exact Hle|].
    assert (Hlt : in_t r2 < in_t r1) by lia.
    assert (Hc' : (count_below pair_eq_dec pair_ltb keys (e, in_t r2)
                   < count_below pair_eq_dec pair_ltb keys (e, in_t r1))%nat)
      by (apply Hc; right; split; [reflexivity | exact Hlt]).
    apply Nat.succ_lt_mono in Hc'. apply Hd in Hc'.
    unfold v1, v2, ngroup in H. lia.
  - apply Nat.nlt_ge. intros Hlt. apply Hd in Hlt.
    apply Nat.succ_lt_mono in Hlt. apply Hc in Hlt. lia.
Qed.

Lemma initial_rank_inv icu_adt_df icu_adt :
  initial_rank icu_adt_df = Some icu_adt ->
  (forall r, In r icu_adt ->
             In (adt r) icu_adt_df /\ in_dttm (adt r) = Some (in_t r)) /\
  (forall r1 r2, In r1 icu_adt -> In r2 icu_adt -> enc r1 = enc r2 ->
                 ((icu_rank r1 <= icu_rank r2)%nat <-> in_t r1 <= in_t r2)).
Proof.
  unfold initial_rank. intros H. apply all_some_Forall2 in H.
  set (sorted := stable_sort adt_leb icu_adt_df) in *.
  split.
  - intros r Hr. destruct (Forall2_In_r _ _ _ _ H Hr) as (a & Ha & Hrow).
    apply rank_row_inv in Hrow. destruct Hrow as (-> & Ht & _).
    split; [|exact Ht]. apply (stable_sort_In adt_leb). exact Ha.
  - intros r1 r2 Hr1 Hr2.
    destruct (Forall2_In_r _ _ _ _ H Hr1) as (a1 & Ha1 & Hrow1).
    destruct (Forall2_In_r _ _ _ _ H Hr2) as (a2 & Ha2 & Hrow2).
    now apply (rank_row_order sorted a1 a2).
Qed.

(** The cast of the initial rank raises exactly when a retained row has
    no [in_dttm]. *)
Lemma initial_rank_none icu_adt_df :
  initial_rank icu_adt_df = None <->
  exists r, In r icu_adt_df /\ in_dttm r = None.
Proof.
  unfold initial_rank. rewrite all_some_none. split.
  - intros (r & Hr & Hn). exists r.
    split; [apply (stable_sort_In adt_leb); exact Hr|].
    unfold rank_row, ngroup_in in Hn.
    destruct (in_dttm r); [discriminate | reflexivity].
  - intros (r & Hr & Hn). exists r.
    split; [apply (stable_sort_In adt_leb); exact Hr|].
    unfold rank_row. now rewrite Hn.
Qed.

(** ** Step 3: the prepared block *)

Lemma icu_leb_spec a b :
  icu_leb a b = true <->
  enc a < enc b \/ (enc a = enc b /\ (icu_rank a <= icu_rank b)%nat).
Proof.
  unfold icu_leb.
  now rewrite orb_true_iff, andb_true_iff, Z.ltb_lt, Z.eqb_eq, Nat.leb_le.
Qed.

Lemma icu_leb_total a b : icu_leb a b = true \/ icu_leb b a = true.
Proof. rewrite !icu_leb_spec. lia. Qed.

Lemma icu_leb_trans a b c :
  icu_leb a b = true -> icu_leb b c = true -> icu_leb a c = true.
Proof. rewrite !icu_leb_spec. lia. Qed.

Lemma prepare_block_In icu_adt r :
  In r (prepare_block icu_adt) <-> In r icu_adt.
Proof.
  unfold prepare_block. now rewrite stable_sort_In, drop_duplicates_In.
Qed.

Lemma prepare_block_NoDup icu_adt : NoDup (prepare_block icu_adt).
Proof.
  unfold prepare_block.
  eapply Permutation_NoDup;
    [symmetry; apply stable_sort_perm | apply drop_duplicates_NoDup].
Qed.

Lemma prepare_block_sorted_rank icu_adt :
  StronglySorted (lebP icu_leb) (prepare_block icu_adt).
Proof.
  apply stable_sort_sorted; [exact icu_leb_total | exact icu_leb_trans].
Qed.

Lemma prepare_block_sorted icu_adt_df icu_adt :
  initial_rank icu_adt_df = Some icu_adt ->
  StronglySorted key_le (prepare_block icu_adt).
Proof.
  intros H. apply initial_rank_inv in H. destruct H as [_ Hord].
  eapply StronglySorted_impl_in; [|apply prepare_block_sorted_rank].
  intros a b Ha Hb Hab.
  apply -> prepare_block_In in Ha. apply -> prepare_block_In in Hb.
  unfold lebP in Hab. apply icu_leb_spec in Hab. unfold key_le.
  destruct Hab as [Hlt|[He Hr]]; [now left|].
  right. split; [exact He|]. now apply (Hord a b Ha Hb He).
Qed.
(** ** Steps 4 and 5: gaps, links and groups *)

Lemma with_gaps_cons r l gap :
  with_gaps (r :: l) gap =
  (let n := option_map in_t (find (fun r' => enc r' =? enc r) l) in
   let hrs := gap_hrs n (out_dttm (adt r)) in
   mk_block r n hrs (linked hrs gap)) :: with_gaps l gap.
Proof. reflexivity. Qed.

Lemma map_icu_with_gaps l gap : map icu (with_gaps l gap) = l.
Proof.
  induction l as [|r l IH]; [reflexivity|].
  rewrite with_gaps_cons. simpl. now f_equal.
Qed.

Lemma find_none_all {A} (f : A -> bool) l :
  (forall x, In x l -> f x = false) -> find f l = None.
Proof.
  induction l as [|x l IH]; intros H; simpl; [reflexivity|].
  rewrite (H x) by now left. apply IH. intros y Hy. apply H. now right.
Qed.

(** In a table sorted by encounter, the next row of the same encounter
    is the next row. *)
Lemma shift_next_sorted r l :
  StronglySorted key_le (r :: l) ->
  option_map in_t (find (fun r' => enc r' =? enc r) l) = next_in r l.
Proof.
  intros Hs. destruct l as [|b l]; [reflexivity|]. simpl.
  destruct (enc b =? enc r) eqn:E; [reflexivity|].
  rewrite find_none_all; [reflexivity|].
  apply Z.eqb_neq in E.
  inversion Hs as [|? ? Hs' Hall]; subst.
  inversion Hs' as [|? ? _ Hall']; subst.
  rewrite Forall_forall in Hall, Hall'.
  assert (Hrb : key_le r b) by (apply Hall; now left).
  intros x Hx. apply Z.eqb_neq.
  specialize (Hall' x Hx). unfold key_le in *. lia.
Qed.

Lemma grouped_from_block gap n l :
  StronglySorted key_le l ->
  map block (grouped_from gap n l) = with_gaps l gap.
Proof.
  revert n. induction l as [|r l IH]; intros n Hs; [reflexivity|].
  rewrite with_gaps_cons. simpl.
  rewrite shift_next_sorted by exact Hs.
  inversion Hs; subst. now rewrite IH.
Qed.

Lemma grouped_from_icu gap n l :
  map (fun g => icu (block g)) (grouped_from gap n l) = l.
Proof.
  revert n. induction l as [|r l IH]; intros n; [reflexivity|].
  simpl. now rewrite IH.
Qed.

Lemma grouped_from_length gap n l :
  List.length (grouped_from gap n l) = List.length l.
Proof.
  revert n. induction l as [|r l IH]; intros n; simpl; auto.
Qed.

Lemma grouped_from_some gap n l x :
  In x (grouped_from gap n l) -> icu_group x = Some (the_group x).
Proof.
  revert n. induction l as [|r l IH]; intros n; simpl; [tauto|].
  intros [<-|Hx]; [reflexivity | eauto].
Qed.

(** A group number is the position (counted from 1) of a row at or
    below the row that carries it. *)
Lemma grouped_from_bounds gap n l x :
  In x (grouped_from gap n l) ->
  (n < the_group x <= n + List.length l)%nat.
Proof.
  revert n x. induction l as [|r l IH]; intros n x; simpl; [tauto|].
  intros [<-|Hx].
  - unfold the_group. simpl.
    destruct (linked _ gap); [|lia].
    destruct (grouped_from gap (S n) l) as [|y rest] eqn:E; simpl; [lia|].
    assert (Hy : In y (grouped_from gap (S n) l)) by (rewrite E; now left).
    apply IH in Hy. lia.
  - apply IH in Hx. lia.
Qed.

Lemma grouped_from_sorted gap n l :
  StronglySorted (fun a b => (the_group a <= the_group b)%nat)
                 (grouped_from gap n l).
Proof.
  revert n. induction l as [|r l IH]; intros n; simpl; constructor.
  - apply IH.
  - rewrite Forall_forall. intros y Hy.
    unfold the_group at 1. simpl.
    destruct (linked _ gap).
    + specialize (IH (S n)).
      destruct (grouped_from gap (S n) l) as [|z rest]; [destruct Hy|].
      simpl. destruct Hy as [<-|Hy]; [lia|].
      inversion IH as [|? ? _ Hall]; subst.
      rewrite Forall_forall in Hall. now apply Hall.
    + apply grouped_from_bounds in Hy. lia.
Qed.

Lemma linked_next gap r l :
  linked (gap_hrs (next_in r l) (out_dttm (adt r))) gap = true ->
  exists c l', l = c :: l' /\ enc c = enc r.
Proof.
  destruct l as [|c l']; simpl; [discriminate|].
  destruct (enc c =? enc r) eqn:E; [|discriminate].
  apply Z.eqb_eq in E. eauto.
Qed.

Lemma grouped_from_cons gap n r l :
  grouped_from gap n (r :: l) =
  (let hrs := gap_hrs (next_in r l) (out_dttm (adt r)) in
   mk_grouped (mk_block r (next_in r l) hrs (linked hrs gap))
     (Some (if linked hrs gap
            then hd_group (S n) (grouped_from gap (S n) l)
            else S n)))
    :: grouped_from gap (S n) l.
Proof. reflexivity. Qed.

Lemma hd_group_cons d d' gap n r l :
  hd_group d (grouped_from gap n (r :: l)) =
  hd_group d' (grouped_from gap n (r :: l)).
Proof. reflexivity. Qed.

Lemma next_valid_seed gap l : forall n b,
  next_valid (enc b)
    (seed_groups n (map block (grouped_from gap n (b :: l)))) =
  Some (hd_group 0 (grouped_from gap n (b :: l))).
Proof.
  induction l as [|c l' IH]; intros n b.
  - simpl. rewrite Z.eqb_refl. reflexivity.
  - rewrite grouped_from_cons.
    remember (grouped_from gap (S n) (c :: l')) as rest eqn:Hrest.
    simpl. unfold enc at 1. simpl. fold (enc b). rewrite Z.eqb_refl.
    destruct (linked _ gap) eqn:E; [|reflexivity].
    destruct (enc c =? enc b) eqn:He; [|discriminate E].
    apply Z.eqb_eq in He.
    rewrite <- He. subst rest. rewrite IH. unfold the_group. simpl.
    f_equal.
Qed.

Lemma bfill_seed gap l : forall n,
  bfill (seed_groups n (map block (grouped_from gap n l))) =
  map (fun g => (g_enc g, icu_group g)) (grouped_from gap n l).
Proof.
  induction l as [|r l IH]; intros n; [reflexivity|].
  rewrite grouped_from_cons.
  remember (grouped_from gap (S n) l) as rest eqn:Hrest.
  simpl. subst rest. rewrite IH. f_equal.
  unfold g_enc. simpl. f_equal.
  destruct (linked _ gap) eqn:E; [|reflexivity].
  apply linked_next in E. destruct E as (c & l' & -> & He).
  rewrite <- He, next_valid_seed. reflexivity.
Qed.

Lemma bfill_full l :
  Forall (fun p : Z * option nat => snd p <> None) l -> bfill l = l.
Proof.
  induction 1 as [|[e [g|]] l Hx Hl IH]; simpl.
  - reflexivity.
  - now rewrite IH.
  - now contradiction Hx.
Qed.

Lemma ffill_full l :
  Forall (fun p : Z * option nat => snd p <> None) l -> ffill l = l.
Proof.
  intros H. unfold ffill. rewrite bfill_full.
  - apply rev_involutive.
  - rewrite Forall_forall in *. intros x Hx. apply H. now apply in_rev.
Qed.

Lemma combine_map_id {A B C} (f : A -> B) (h : A -> C)
      (mk : B * C -> A) (l : list A) :
  (forall x, In x l -> mk (f x, h x) = x) ->
  map mk (combine (map f l) (map h l)) = l.
Proof.
  induction l as [|x l IH]; intros H; simpl; [reflexivity|].
  rewrite (H x) by now left.
  rewrite IH by (intros y Hy; apply H; now right). reflexivity.
Qed.

(** The bidirectional fill computes the closed form. *)
Lemma assign_groups_closed gap l :
  StronglySorted key_le l ->
  assign_groups (with_gaps l gap) = grouped_from gap 0 l.
Proof.
  intros Hs. unfold assign_groups.
  rewrite <- (grouped_from_block gap 0 l Hs), bfill_seed.
  rewrite ffill_full.
  - apply (combine_map_id block (fun g => (g_enc g, icu_group g))
             (fun p => mk_grouped (fst p) (snd (snd p)))).
    intros x _. now destruct x.
  - rewrite Forall_forall. intros p Hp. apply in_map_iff in Hp.
    destruct Hp as (x & <- & Hx). simpl.
    rewrite (grouped_from_some _ _ _ _ Hx). discriminate.
Qed.

Lemma block_leb_sorted l gap :
  StronglySorted (lebP icu_leb) l ->
  StronglySorted (lebP block_leb) (with_gaps l gap).
Proof.
  intros Hs.
  apply (StronglySorted_map icu (lebP icu_leb)).
  now rewrite map_icu_with_gaps.
Qed.

(** The table [icu_block] of a run that does not raise. *)
Lemma icu_block_closed adt_df gap G :
  icu_block adt_df gap = Some G ->
  exists icu_adt,
    initial_rank (filter icu_mask adt_df) = Some icu_adt /\
    G = grouped_from gap 0 (prepare_block icu_adt).
Proof.
  unfold icu_block.
  destruct (initial_rank (filter icu_mask adt_df)) as [icu_adt|] eqn:E;
    [|discriminate].
  intros [= <-]. exists icu_adt. split; [reflexivity|].
  rewrite stable_sort_id
    by (apply block_leb_sorted, prepare_block_sorted_rank).
  apply assign_groups_closed. eapply prepare_block_sorted, E.
Qed.

(** ** Aggregation, merge and final rank *)

Lemma grouped_tail x G : grouped (x :: G) -> grouped G.
Proof. intros H y Hy. apply H. now right. Qed.

Lemma group_keys_closed G : grouped G -> group_keys G = map key_of G.
Proof.
  induction G as [|x G IH]; intros HG; simpl; [reflexivity|].
  rewrite (HG x) by now left.
  rewrite IH by (eapply grouped_tail; eauto). reflexivity.
Qed.

Lemma aggregate_closed G :
  aggregate G =
  map (agg_of G)
      (stable_sort group_key_leb (nodup group_key_eq_dec (group_keys G))).
Proof. reflexivity. Qed.

Lemma filter_eq_NoDup {A} (p : A -> bool) (l : list A) (k : A) :
  (forall a, In a l -> (p a = true <-> a = k)) ->
  NoDup l -> In k l -> filter p l = [k].
Proof.
  induction l as [|x l IH]; intros Hp Hnd Hin; [destruct Hin|].
  inversion Hnd as [|? ? Hnotin Hnd']; subst. simpl.
  destruct (p x) eqn:E.
  - apply Hp in E; [|now left]. subst x. f_equal.
    rewrite (filter_ext_in p (fun _ => false)); [apply filter_false|].
    intros y Hy. destruct (p y) eqn:Ey; [|reflexivity].
    apply Hp in Ey; [|now right]. subst y. contradiction.
  - destruct Hin as [->|Hin].
    + assert (p k = true) by (apply Hp; [now left | reflexivity]).
      congruence.
    + apply IH; auto. intros a Ha. apply Hp. now right.
Qed.

Lemma key_match_agg G x k :
  icu_group x = Some (the_group x) ->
  (key_match x (agg_of G k) = true <-> k = key_of x).
Proof.
  intros Hx. unfold key_match, agg_of, key_of. simpl. rewrite Hx.
  rewrite andb_true_iff, Z.eqb_eq, Nat.eqb_eq. destruct k as [e g]. simpl.
  split; [intros [-> ->]; reflexivity | intros [= -> ->]; auto].
Qed.

Lemma merge_match G x :
  grouped G -> In x G ->
  filter (key_match x) (aggregate G) = [agg_of G (key_of x)].
Proof.
  intros HG Hx. rewrite aggregate_closed, filter_map_swap.
  rewrite (filter_eq_NoDup _ _ (key_of x)); [reflexivity| | |].
  - intros k _. apply key_match_agg. now apply HG.
  - eapply Permutation_NoDup;
      [symmetry; apply stable_sort_perm | apply NoDup_nodup].
  - apply stable_sort_In, nodup_In. rewrite group_keys_closed by exact HG.
    now apply in_map.
Qed.

Lemma flat_map_single {A B} (f : A -> list B) (g : A -> B) l :
  (forall x, In x l -> f x = [g x]) -> flat_map f l = map g l.
Proof.
  induction l as [|x l IH]; intros H; simpl; [reflexivity|].
  rewrite (H x) by now left.
  rewrite IH by (intros y Hy; apply H; now right). reflexivity.
Qed.

(** The left merge yields one row for each row of [icu_block], in the
    same order. *)
Lemma merge_left_closed G :
  grouped G -> merge_left G (aggregate G) = map (stay_of G) G.
Proof.
  intros HG. unfold merge_left. apply flat_map_single.
  intros x Hx. rewrite merge_match by assumption. reflexivity.
Qed.

Lemma stay_keys_closed G :
  grouped G -> stay_keys (map (stay_of G) G) = map key_of G.
Proof.
  intros HG.
  assert (H : forall L, (forall x, In x L -> icu_group x = Some (the_group x)) ->
                        stay_keys (map (stay_of G) L) = map key_of L).
  { induction L as [|x L IH]; intros HL; simpl; [reflexivity|].
    rewrite (HL x) by now left.
    rewrite IH by (intros y Hy; apply HL; now right). reflexivity. }
  now apply H.
Qed.

Lemma StronglySorted_conj {A} (R1 R2 : A -> A -> Prop) l :
  StronglySorted R1 l -> StronglySorted R2 l ->
  StronglySorted (fun a b => R1 a b /\ R2 a b) l.
Proof.
  induction 1 as [|x l Hs IH Hall]; intros H2; [constructor|].
  inversion H2 as [|? ? Hs2 Hall2]; subst. constructor; [auto|].
  rewrite Forall_forall in *. auto.
Qed.

Lemma stay_leb_spec a b :
  stay_leb a b = true <->
  s_encounter_block a < s_encounter_block b \/
  (s_encounter_block a = s_encounter_block b /\
   ((s_icu_rank a < s_icu_rank b)%nat \/
    (s_icu_rank a = s_icu_rank b /\
     opt_nat_leb (s_icu_group a) (s_icu_group b) = true))).
Proof.
  unfold stay_leb.
  rewrite orb_true_iff, andb_true_iff, orb_true_iff, andb_true_iff.
  now rewrite Z.ltb_lt, Z.eqb_eq, Nat.ltb_lt, Nat.eqb_eq.
Qed.

(** The merged table is already in the order of the last sort. *)
Lemma stay_sorted gap l :
  StronglySorted (lebP icu_leb) l ->
  let G := grouped_from gap 0 l in
  StronglySorted (lebP stay_leb) (map (stay_of G) G).
Proof.
  intros Hs G. apply StronglySorted_map.
  assert (H1 : StronglySorted
                 (fun a b => lebP icu_leb (icu (block a)) (icu (block b)))
                 G).
  { apply (StronglySorted_map (fun g => icu (block g)) (lebP icu_leb)).
    unfold G. now rewrite grouped_from_icu. }
  pose proof (grouped_from_sorted gap 0 l) as H2. fold G in H2.
  eapply StronglySorted_impl_in;
    [|exact (StronglySorted_conj _ _ _ H1 H2)].
  intros a b Ha Hb [Hab Hg]. unfold lebP in *.
  apply icu_leb_spec in Hab. apply stay_leb_spec. unfold stay_of. simpl.
  unfold g_enc.
  rewrite (grouped_from_some _ _ _ _ Ha), (grouped_from_some _ _ _ _ Hb).
  simpl. rewrite Nat.leb_le.
  destruct Hab as [Hlt|[He Hr]]; [now left|]. right. split; [exact He|].
  lia.
Qed.

Lemma rerank_row_closed G x :
  icu_group x = Some (the_group x) ->
  rerank_row (map (stay_of G) G) (stay_of G x) = Some (out_row_of G x).
Proof.
  intros Hx. unfold rerank_row, ngroup_stay, out_row_of. simpl.
  rewrite Hx. reflexivity.
Qed.

(** The function in closed form: the run raises exactly when
    [icu_block] cannot be built, and otherwise returns one row for each
    row of [icu_block], in the same order. *)
Lemma stitch_closed adt_df gap :
  stitch_icu_stays adt_df gap =
  option_map (fun G => map (out_row_of G) G) (icu_block adt_df gap).
Proof.
  unfold stitch_icu_stays.
  destruct (icu_block adt_df gap) as [G|] eqn:E; [|reflexivity].
  simpl. apply icu_block_closed in E.
  destruct E as (icu_adt & Hrank & ->).
  set (l := prepare_block icu_adt).
  set (G := grouped_from gap 0 l).
  assert (HG : grouped G) by (intros x Hx; eapply grouped_from_some, Hx).
  rewrite merge_left_closed by exact HG.
  unfold update_rank.
  rewrite stable_sort_id
    by (apply stay_sorted, prepare_block_sorted_rank).
  rewrite map_map. apply all_some_total.
  intros x Hx. apply rerank_row_closed. now apply HG.
Qed.

(** ** Neighbouring rows of the grouped block *)

Lemma grouped_from_adjacent gap l : forall n pre a b post,
  grouped_from gap n l = pre ++ a :: b :: post ->
  linked6hrs (block a) = link_to gap a b /\
  (the_group a = the_group b <-> linked6hrs (block a) = true).
Proof.
  induction l as [|r l IH]; intros n pre a b post H.
  - destruct pre; discriminate H.
  - rewrite grouped_from_cons in H. destruct pre as [|x pre].
    + simpl in H. injection H as Ha Hrest.
      assert (Hb : In b (grouped_from gap (S n) l))
        by (rewrite Hrest; now left).
      pose proof (grouped_from_bounds _ _ _ _ Hb) as Hbound.
      pose proof (grouped_from_icu gap (S n) l) as Hicu.
      rewrite Hrest in Hicu. simpl in Hicu.
      rewrite Hrest in Ha. subst a. rewrite <- Hicu.
      unfold link_to, g_enc, g_in, g_out, the_group at 1. simpl.
      split; [reflexivity|].
      destruct (linked _ gap); split; intros; auto; try discriminate; lia.
    + simpl in H. injection H as _ Hrest. eapply IH, Hrest.
Qed.

Lemma grouped_from_last gap l : forall n pre a,
  grouped_from gap n l = pre ++ [a] -> linked6hrs (block a) = false.
Proof.
  induction l as [|r l IH]; intros n pre a H.
  - destruct pre; discriminate H.
  - rewrite grouped_from_cons in H. destruct pre as [|x pre].
    + simpl in H. injection H as Ha Hrest.
      destruct l; [|discriminate Hrest]. now subst a.
    + simpl in H. injection H as _ Hrest. eapply IH, Hrest.
Qed.

Lemma grouped_from_In_icu gap n l x :
  In x (grouped_from gap n l) -> In (icu (block x)) l.
Proof.
  intros Hx. rewrite <- (grouped_from_icu gap n l).
  now apply (in_map (fun g => icu (block g))).
Qed.

Lemma grouped_from_key_sorted gap n l :
  StronglySorted key_le l ->
  StronglySorted g_key_le (grouped_from gap n l).
Proof.
  intros Hs.
  apply (StronglySorted_map (fun g => icu (block g)) key_le).
  now rewrite grouped_from_icu.
Qed.

(** Between two rows that carry different labels there are two
    neighbouring rows that do. *)
Lemma boundary_between {A} (f : A -> nat) (l : list A) : forall x y,
  In y l -> f x <> f y ->
  exists pre a b post,
    x :: l = pre ++ a :: b :: post /\ f a <> f b /\ In y (b :: post).
Proof.
  induction l as [|z l IH]; intros x y Hy Hne; [destruct Hy|].
  destruct (Nat.eq_dec (f x) (f z)) as [Heq|Hxz].
  - destruct Hy as [->|Hy]; [contradiction|].
    assert (Hzy : f z <> f y) by congruence.
    destruct (IH z y Hy Hzy) as (pre & a & b & post & Hl & Hab & Hin).
    exists (x :: pre), a, b, post. simpl. rewrite Hl. auto.
  - exists [], x, z, l. simpl. auto.
Qed.

Lemma sorted_decomp {A} (R : A -> A -> Prop) x l pre a b post :
  StronglySorted R (x :: l) -> x :: l = pre ++ a :: b :: post ->
  (a = x \/ R x a) /\ R a b /\ (forall y, In y (b :: post) -> y = b \/ R b y).
Proof.
  intros Hs Heq. rewrite Heq in Hs.
  apply StronglySorted_app_inv in Hs. destruct Hs as (_ & Hs & Hcross).
  inversion Hs as [|? ? Hs' Hall]; subst.
  inversion Hs' as [|? ? _ Hall']; subst.
  rewrite Forall_forall in Hall, Hall'.
  repeat split.
  - destruct pre as [|x' pre]; simpl in Heq; injection Heq as Hx _.
    + now left.
    + right. subst x'. apply Hcross; now left.
  - apply Hall. now left.
  - intros y [<-|Hy]; [now left | right; now apply Hall'].
Qed.

(** Two rows of one encounter that lie in different groups are separated
    by a row [a] that is not linked to its successor [b]. *)
Lemma group_separation gap l x y :
  StronglySorted key_le l ->
  let G := grouped_from gap 0 l in
  In x G -> In y G -> g_enc x = g_enc y ->
  (the_group x < the_group y)%nat ->
  exists a b,
    In a G /\ In b G /\
    g_enc a = g_enc x /\ g_enc b = g_enc x /\
    g_in x <= g_in a /\ g_in a <= g_in b /\ g_in b <= g_in y /\
    linked (gap_hrs (Some (g_in b)) (g_out a)) gap = false.
Proof.
  intros Hs G Hx Hy He Hlt.
  destruct (in_split _ _ Hx) as (l1 & l2 & HG).
  pose proof (grouped_from_sorted gap 0 l) as Hgs. fold G in Hgs.
  pose proof (grouped_from_key_sorted gap 0 l Hs) as Hks. fold G in Hks.
  rewrite HG in Hgs, Hks.
  apply StronglySorted_app_inv in Hgs. destruct Hgs as (_ & _ & Hg12).
  apply StronglySorted_app_inv in Hks. destruct Hks as (_ & Hks & _).
  assert (Hy2 : In y l2).
  { rewrite HG in Hy. apply in_app_or in Hy.
    destruct Hy as [Hy|[Hy|Hy]]; [| |exact Hy].
    - specialize (Hg12 y x Hy (or_introl eq_refl)). lia.
    - subst y. lia. }
  assert (Hne : the_group x <> the_group y) by lia.
  destruct (boundary_between the_group l2 x y Hy2 Hne)
    as (pre & a & b & post & Hl & Hab & Hyb).
  destruct (sorted_decomp _ _ _ _ _ _ _ Hks Hl) as (Hxa & Hab' & Hby).
  assert (HG' : G = (l1 ++ pre) ++ a :: b :: post)
    by (rewrite HG, Hl, app_assoc; reflexivity).
  destruct (grouped_from_adjacent gap l 0 _ _ _ _ HG') as [Hlk Hiff].
  assert (Hnl : linked6hrs (block a) = false).
  { destruct (linked6hrs (block a)); [|reflexivity].
    exfalso. apply Hab, Hiff. reflexivity. }
  assert (Hxa' : g_enc x <= g_enc a /\ (g_enc x = g_enc a -> g_in x <= g_in a)).
  { destruct Hxa as [->|Hxa]; [lia|]. unfold g_key_le in Hxa. lia. }
  assert (Hby' : g_enc b <= g_enc y /\ (g_enc b = g_enc y -> g_in b <= g_in y)).
  { destruct (Hby y Hyb) as [->|H]; [lia|]. unfold g_key_le in H. lia. }
  unfold g_key_le in Hab'.
  assert (Hea : g_enc a = g_enc x) by lia.
  assert (Heb : g_enc b = g_enc x) by lia.
  exists a, b.
  assert (Ha : In a G).
  { rewrite HG'. apply in_or_app. right. now left. }
  assert (Hb : In b G).
  { rewrite HG'. apply in_or_app. right. right. now left. }
  repeat split; try assumption; try lia.
  rewrite Hlk in Hnl. unfold link_to in Hnl.
  replace (g_enc b =? g_enc a) with true in Hnl
    by (symmetry; apply Z.eqb_eq; lia).
  exact Hnl.
Qed.

(** ** The aggregation functions *)

Lemma fold_min_spec l : forall x,
  In (fold_left Z.min l x) (x :: l) /\
  forall y, In y (x :: l) -> fold_left Z.min l x <= y.
Proof.
  induction l as [|z l IH]; intros x; simpl.
  - split; [now left | intros y [<-|[]]; lia].
  - destruct (IH (Z.min x z)) as [Hin Hle]. split.
    + destruct Hin as [Hin|Hin]; [|now right; right].
      rewrite <- Hin. destruct (Z.min_spec x z) as [[_ ->]|[_ ->]]; auto.
    + intros y [<-|[<-|Hy]].
      * specialize (Hle (Z.min x z) (or_introl eq_refl)). lia.
      * specialize (Hle (Z.min x z) (or_introl eq_refl)). lia.
      * apply Hle. now right.
Qed.

Lemma agg_min_spec l m :
  agg_min l = Some m -> In m l /\ forall y, In y l -> m <= y.
Proof.
  destruct l as [|x l]; [discriminate|]. simpl. intros [= <-].
  apply fold_min_spec.
Qed.

Lemma agg_min_some l : l <> [] -> exists m, agg_min l = Some m.
Proof. destruct l; [congruence | simpl; eauto]. Qed.

Lemma fold_omax_spec l : forall acc,
  match fold_left omax l acc with
  | Some m =>
      (acc = Some m \/ In (Some m) l) /\
      (forall x, acc = Some x \/ In (Some x) l -> x <= m)
  | None => acc = None /\ forall x, In x l -> x = None
  end.
Proof.
  induction l as [|z l IH]; intros acc; simpl.
  - destruct acc as [a|].
    + split; [now left | intros x [[= ->]|[]]; lia].
    + split; [reflexivity | intros x []].
  - specialize (IH (omax acc z)).
    destruct (fold_left omax l (omax acc z)) as [m|].
    + destruct IH as [Hin Hle]. split.
      * destruct Hin as [Hin|Hin]; [|now right; right].
        destruct acc as [a|], z as [b|]; simpl in Hin;
          try (injection Hin as <-); try discriminate; auto.
        destruct (Z.max_spec a b) as [[_ ->]|[_ ->]]; auto.
      * intros x Hx.
        destruct acc as [a|], z as [b|]; simpl in Hle.
        -- destruct Hx as [[= ->]|[[= ->]|Hx]].
           ++ specialize (Hle (Z.max x b) (or_introl eq_refl)). lia.
           ++ specialize (Hle (Z.max a x) (or_introl eq_refl)). lia.
           ++ apply Hle. now right.
        -- destruct Hx as [[= ->]|[Hx|Hx]]; try discriminate.
           ++ apply Hle. now left.
           ++ apply Hle. now right.
        -- destruct Hx as [Hx|[[= ->]|Hx]]; try discriminate.
           ++ apply Hle. now left.
           ++ apply Hle. now right.
        -- destruct Hx as [Hx|[Hx|Hx]]; try discriminate.
           apply Hle. now right.
    + destruct IH as [Hacc Hall].
      destruct acc as [a|], z as [b|]; simpl in Hacc; try discriminate.
      split; [reflexivity|]. intros x [<-|Hx]; auto.
Qed.

Lemma agg_max_some l m :
  agg_max l = Some m ->
  In (Some m) l /\ forall x, In (Some x) l -> x <= m.
Proof.
  unfold agg_max. intros H. pose proof (fold_omax_spec l None) as Hs.
  rewrite H in Hs. destruct Hs as [Hin Hle]. split.
  - destruct Hin as [Hin|Hin]; [discriminate | exact Hin].
  - intros x Hx. apply Hle. now right.
Qed.

Lemma agg_max_none l :
  agg_max l = None -> forall x, In x l -> x = None.
Proof.
  unfold agg_max. intros H. pose proof (fold_omax_spec l None) as Hs.
  rewrite H in Hs. tauto.
Qed.

Lemma fold_olast_spec {A} (l : list (option A)) : forall acc,
  match fold_left olast l acc with
  | Some v =>
      (exists pre post,
          l = pre ++ Some v :: post /\ forall x, In x post -> x = None) \/
      (acc = Some v /\ forall x, In x l -> x = None)
  | None => acc = None /\ forall x, In x l -> x = None
  end.
Proof.
  induction l as [|z l IH]; intros acc; simpl.
  - destruct acc; [right|]; split; auto; intros x [].
  - specialize (IH (olast acc z)).
    destruct (fold_left olast l (olast acc z)) as [v|].
    + destruct IH as [(pre & post & -> & Hpost)|[Hacc Hall]].
      * left. exists (z :: pre), post. auto.
      * destruct z as [b|]; simpl in Hacc.
        -- left. exists [], l. injection Hacc as ->. auto.
        -- right. split; [exact Hacc|]. intros x [<-|Hx]; auto.
    + destruct IH as [Hacc Hall].
      destruct z as [b|]; simpl in Hacc; [discriminate|].
      split; [exact Hacc|]. intros x [<-|Hx]; auto.
Qed.

(** [last] picks the value of the last row that has one. *)
Lemma agg_last_spec {A B} (f : A -> option B) (ms : list A) :
  match agg_last (map f ms) with
  | Some v =>
      exists pre m post,
        ms = pre ++ m :: post /\ f m = Some v /\
        forall m', In m' post -> f m' = None
  | None => forall m, In m ms -> f m = None
  end.
Proof.
  unfold agg_last. pose proof (fold_olast_spec (map f ms) None) as H.
  destruct (fold_left olast (map f ms) None) as [v|].
  - destruct H as [(pre & post & Heq & Hpost)|[H _]]; [|discriminate].
    apply map_eq_app in Heq. destruct Heq as (pre' & rest & -> & <- & Hrest).
    apply map_eq_cons in Hrest.
    destruct Hrest as (m & post' & -> & Hm & <-).
    exists pre', m, post'. repeat split; auto.
    intros m' Hm'. apply Hpost. now apply in_map.
  - destruct H as [_ H]. intros m Hm. apply H. now apply in_map.
Qed.

(** ** The returned table *)

Lemma in_group_iff k x :
  icu_group x = Some (the_group x) ->
  (in_group k x = true <-> key_of x = k).
Proof.
  intros Hx. unfold in_group, key_of. rewrite Hx.
  rewrite andb_true_iff, Z.eqb_eq, Nat.eqb_eq. destruct k as [e g]. simpl.
  split; [intros [-> ->]; reflexivity | intros [= -> ->]; auto].
Qed.

Lemma members_In G k x :
  grouped G -> (In x (members G k) <-> In x G /\ key_of x = k).
Proof.
  intros HG. unfold members. rewrite filter_In. split.
  - intros [Hx Hk]. split; [exact Hx|]. apply in_group_iff; auto.
  - intros [Hx Hk]. split; [exact Hx|]. apply in_group_iff; auto.
Qed.

Lemma out_row_of_key G x y :
  key_of x = key_of y -> out_row_of G x = out_row_of G y.
Proof.
  intros Hk. unfold out_row_of. rewrite Hk.
  assert (He : g_enc x = g_enc y) by (injection Hk; auto).
  assert (Hg : the_group x = the_group y) by (injection Hk; auto).
  now rewrite He, Hg.
Qed.

(** What a run that returns [out] went through. *)
Lemma stitch_inv adt_df gap out :
  stitch_icu_stays adt_df gap = Some out ->
  exists icu_adt G,
    initial_rank (filter icu_mask adt_df) = Some icu_adt /\
    StronglySorted key_le (prepare_block icu_adt) /\
    G = grouped_from gap 0 (prepare_block icu_adt) /\
    icu_block adt_df gap = Some G /\
    grouped G /\
    out = map (out_row_of G) G.
Proof.
  rewrite stitch_closed.
  destruct (icu_block adt_df gap) as [G|] eqn:E; [|discriminate].
  simpl. intros [= <-].
  destruct (icu_block_closed _ _ _ E) as (icu_adt & Hrank & HG).
  exists icu_adt, G. repeat split; auto.
  - eapply prepare_block_sorted, Hrank.
  - subst G. intros x Hx. eapply grouped_from_some, Hx.
Qed.

Lemma Forall2_In_l {A B} (R : A -> B -> Prop) l l' x :
  Forall2 R l l' -> In x l -> exists y, In y l' /\ R x y.
Proof.
  induction 1 as [|x' y l l' Hxy Hf IH]; simpl; [tauto|].
  intros [<-|Hx]; [eauto|].
  destruct (IH Hx) as (y' & ? & ?). eauto.
Qed.

Lemma NoDup_same_length {A} (l l' : list A) :
  NoDup l -> NoDup l' -> (forall x, In x l <-> In x l') ->
  List.length l = List.length l'.
Proof.
  intros H1 H2 H. apply Permutation_length.
  now apply NoDup_Permutation.
Qed.

(** The block holds each distinct retained row once. *)
Lemma prepare_block_length icu_adt_df icu_adt :
  initial_rank icu_adt_df = Some icu_adt ->
  List.length (prepare_block icu_adt) =
  List.length (nodup adt_row_eq_dec icu_adt_df).
Proof.
  unfold initial_rank. intros H. apply all_some_Forall2 in H.
  set (sorted := stable_sort adt_leb icu_adt_df) in *.
  assert (Hrow : forall r, In r icu_adt ->
                           In (adt r) sorted /\
                           rank_row sorted (adt r) = Some r).
  { intros r Hr. destruct (Forall2_In_r _ _ _ _ H Hr) as (a & Ha & Hrow).
    pose proof (rank_row_inv _ _ _ Hrow) as (Hadt & _). subst a. auto. }
  rewrite <- (length_map adt (prepare_block icu_adt)).
  apply NoDup_same_length.
  - apply Injective_map_NoDup_in; [|apply prepare_block_NoDup].
    intros r1 r2 H1 H2 Heq.
    apply -> prepare_block_In in H1. apply -> prepare_block_In in H2.
    destruct (Hrow r1 H1) as [_ E1]. destruct (Hrow r2 H2) as [_ E2].
    rewrite Heq in E1. congruence.
  - apply NoDup_nodup.
  - intros a. rewrite nodup_In, in_map_iff. split.
    + intros (r & <- & Hr). apply -> prepare_block_In in Hr.
      destruct (Hrow r Hr) as [Hs _].
      apply (stable_sort_In adt_leb). exact Hs.
    + intros Ha. apply (stable_sort_In adt_leb) in Ha.
      destruct (Forall2_In_l _ _ _ _ H Ha) as (r & Hr & Hrow').
      exists r. split; [apply (rank_row_inv _ _ _ Hrow')|].
      now apply prepare_block_In.
Qed.

(** Scenario B: with the default threshold the two segments form one
    stay from 08:00 to 12:00, of rank 1 (returned once per segment). *)
Example scenario_b_merged :
  stitch_icu_stays scenario_b 6 =
  Some [ mk_out 1 2 1 (Some 28800) (Some 43200) (Some "sicu"%string);
         mk_out 1 2 1 (Some 28800) (Some 43200) (Some "sicu"%string) ].
Proof. vm_compute. reflexivity. Qed.

(** Scenario C: with a threshold of 3 minutes the 5-minute gap separates
    the two segments, of ranks 1 and 2. *)
Example scenario_c_separate :
  stitch_icu_stays scenario_b (1 # 20) =
  Some [ mk_out 1 1 1 (Some 28800) (Some 36000) (Some "micu"%string);
         mk_out 1 2 2 (Some 36300) (Some 43200) (Some "sicu"%string) ].
Proof. vm_compute. reflexivity. Qed.

(** C1, as stated, fails: with the default gap the two segments of
    scenario B merge into one group, and the returned table holds two
    rows for that group. *)
Lemma stitch_row_per_group_counterexample :
  exists out,
    stitch_icu_stays scenario_b 6 = Some out /\
    ~ NoDup (map (fun o => (o_encounter_block o, o_icu_group o)) out).
Proof.
  eexists. split; [vm_compute; reflexivity|].
  simpl. intros H. inversion H as [|? ? Hnotin _]; subst.
  apply Hnotin. now left.
Qed.

(** C1, amended.  The returned table has one row for each distinct
    retained (ICU or stepdown) row of the input, not one per group; the
    rows that share [(encounter_block, icu_group)] are equal, so its
    distinct rows are one per pair. *)
Theorem stitch_row_per_segment adt_df gap out :
  stitch_icu_stays adt_df gap = Some out ->
  List.length out =
    List.length (nodup adt_row_eq_dec (filter icu_mask adt_df)) /\
  (forall o1 o2,
      In o1 out -> In o2 out ->
      o_encounter_block o1 = o_encounter_block o2 ->
      o_icu_group o1 = o_icu_group o2 ->
      o1 = o2).
Proof.
  intros H.
  destruct (stitch_inv _ _ _ H) as (icu_adt & G & Hrank & Hs & HG & _ & _ & ->).
  split.
  - rewrite length_map, HG, grouped_from_length.
    eapply prepare_block_length, Hrank.
  - intros o1 o2 H1 H2 He Hg.
    apply in_map_iff in H1. destruct H1 as (x & <- & Hx).
    apply in_map_iff in H2. destruct H2 as (y & <- & Hy).
    simpl in He, Hg. apply out_row_of_key. unfold key_of. congruence.
Qed.

Lemma stitch_row_per_segment_witness :
  exists out,
    stitch_icu_stays scenario_b 6 = Some out /\
    List.length out =
      List.length (nodup adt_row_eq_dec (filter icu_mask scenario_b)).
Proof.
  eexists. split; [vm_compute; reflexivity|].
  refine (proj1 (stitch_row_per_segment scenario_b 6 _ _)).
  vm_compute. reflexivity.
Defined.

(** ** Links between consecutive segments *)

Lemma Qlt_bool_iff a b : Qlt_bool a b = true <-> (a < b)%Q.
Proof. unfold Qlt_bool, Qlt. apply Z.ltb_lt. Qed.





(** ** The group assignment of the specification *)




Lemma StronglySorted_nth {A} (R : A -> A -> Prop) l : forall i j p q,
  StronglySorted R l -> (i < j)%nat ->
  nth_error l i = Some p -> nth_error l j = Some q -> R p q.
Proof.
  induction l as [|x l IH]; intros i j p q Hs Hij Hi Hj.
  - destruct i; discriminate.
  - inversion Hs as [|? ? Hs' Hall]; subst.
    destruct j as [|j]; [lia|]. simpl in Hj.
    destruct i as [|i]; simpl in Hi.
    + injection Hi as <-. rewrite Forall_forall in Hall.
      eapply Hall, nth_error_In, Hj.
    + eapply (IH i j); eauto. lia.
Qed.

Lemma nth_error_combine {A B} (l : list A) (l' : list B) : forall i a b,
  nth_error l i = Some a -> nth_error l' i = Some b ->
  nth_error (combine l l') i = Some (a, b).
Proof.
  revert l'. induction l as [|x l IH]; intros l' i a b Ha Hb.
  - destruct i; discriminate.
  - destruct l' as [|y l']; [destruct i; discriminate|].
    destruct i as [|i]; simpl in *; [congruence | auto].
Qed.



(** ** The final rank *)

Lemma ngroup_stay_of_closed G L e :
  grouped G -> (forall x, In x L -> In x G) ->
  ngroup_stay_of (map (stay_of G) G) (map (stay_of G) L) e =
  map (group_number G) (filter (fun x => g_enc x =? e) L).
Proof.
  intros HG. induction L as [|x L IH]; intros HL; [reflexivity|].
  simpl. rewrite IH by (intros y Hy; apply HL; now right).
  destruct (g_enc x =? e); [|reflexivity].
  unfold ngroup_stay. simpl.
  rewrite (HG x) by (apply HL; now left).
  rewrite stay_keys_closed by exact HG. reflexivity.
Qed.

Lemma final_rank_closed G x :
  grouped G ->
  o_icu_rank (out_row_of G x) =
  dense_rank Nat.eq_dec Nat.ltb
    (map (group_number G) (filter (fun y => g_enc y =? g_enc x) G))
    (group_number G x).
Proof.
  intros HG. unfold out_row_of. simpl.
  rewrite ngroup_stay_of_closed by auto.
  rewrite stay_keys_closed by exact HG. reflexivity.
Qed.

Lemma group_number_lt_iff G x y :
  In x G -> In y G -> g_enc x = g_enc y ->
  ((group_number G x < group_number G y)%nat <->
   (the_group x < the_group y)%nat).
Proof.
  intros Hx Hy He. unfold group_number, ngroup.
  rewrite <- Nat.succ_lt_mono.
  rewrite (count_below_lt_iff group_key_eq_dec group_key_ltb
             group_key_ltb_irrefl group_key_ltb_trans group_key_ltb_total)
    by (now apply in_map).
  rewrite group_key_ltb_spec. unfold key_of. simpl. lia.
Qed.

Lemma in_encounter G x y :
  In y G -> g_enc x = g_enc y ->
  In (group_number G y)
     (map (group_number G) (filter (fun z => g_enc z =? g_enc x) G)).
Proof.
  intros Hy He. apply in_map, filter_In. split; [exact Hy|].
  apply Z.eqb_eq. now symmetry.
Qed.

(** Within an encounter the final rank orders rows as [icu_group]
    does. *)
Lemma final_rank_lt_iff G x y :
  grouped G -> In x G -> In y G -> g_enc x = g_enc y ->
  ((o_icu_rank (out_row_of G x) < o_icu_rank (out_row_of G y))%nat <->
   (the_group x < the_group y)%nat).
Proof.
  intros HG Hx Hy He. rewrite !final_rank_closed by exact HG.
  rewrite <- He.
  rewrite dense_rank_lt_iff
    by (apply in_encounter; auto).
  now apply group_number_lt_iff.
Qed.

Lemma nodup_map_length {A} (f g : A -> nat) (l : list A) :
  (forall x y, In x l -> In y l -> (f x = f y <-> g x = g y)) ->
  List.length (nodup Nat.eq_dec (map f l)) =
  List.length (nodup Nat.eq_dec (map g l)).
Proof.
  induction l as [|a l IH]; intros H; [reflexivity|]. simpl.
  assert (Hin : In (f a) (map f l) <-> In (g a) (map g l)).
  { rewrite !in_map_iff. split; intros (y & Hy & Hyl); exists y;
      (split; [|exact Hyl]).
    - apply H; [now right | now left | exact Hy].
    - apply H; [now right | now left | exact Hy]. }
  assert (IH' : List.length (nodup Nat.eq_dec (map f l)) =
                List.length (nodup Nat.eq_dec (map g l))).
  { apply IH. intros x y Hx Hy. apply H; now right. }
  destruct (in_dec Nat.eq_dec (f a) (map f l)) as [Hf|Hf];
    destruct (in_dec Nat.eq_dec (g a) (map g l)) as [Hg|Hg];
    simpl; try tauto; now rewrite IH'.
Qed.

(** The ranks of an encounter are the numbers from 1 to the number of
    its groups. *)
Lemma final_rank_range G e n :
  grouped G ->
  let rows := filter (fun x => g_enc x =? e) G in
  ((exists x, In x rows /\ o_icu_rank (out_row_of G x) = n) <->
   (1 <= n <= List.length (nodup Nat.eq_dec (map the_group rows)))%nat).
Proof.
  intros HG rows.
  set (vals := map (group_number G) rows).
  assert (Hlen : List.length (nodup Nat.eq_dec vals) =
                 List.length (nodup Nat.eq_dec (map the_group rows))).
  { apply nodup_map_length. intros x y Hx Hy.
    apply filter_In in Hx, Hy. destruct Hx as [Hx Hex], Hy as [Hy Hey].
    apply Z.eqb_eq in Hex, Hey.
    assert (He : g_enc x = g_enc y) by congruence.
    pose proof (group_number_lt_iff G x y Hx Hy He).
    pose proof (group_number_lt_iff G y x Hy Hx (eq_sym He)). lia. }
  assert (Hrank : forall x, In x rows ->
                    o_icu_rank (out_row_of G x) =
                    S (count_below Nat.eq_dec Nat.ltb vals
                                   (group_number G x))).
  { intros x Hx. rewrite final_rank_closed by exact HG.
    apply filter_In in Hx. destruct Hx as [_ Hex]. apply Z.eqb_eq in Hex.
    rewrite Hex. reflexivity. }
  rewrite <- Hlen. split.
  - intros (x & Hx & <-). rewrite (Hrank x Hx).
    assert (Hv : In (group_number G x) vals) by now apply in_map.
    pose proof (count_below_bound Nat.eq_dec Nat.ltb Nat.ltb_irrefl
                  vals _ Hv). lia.
  - intros [H1 Hk]. destruct n as [|n]; [lia|].
    destruct (count_below_onto Nat.eq_dec Nat.ltb Nat.ltb_irrefl
                nat_ltb_trans nat_ltb_total vals n) as (v & Hv & Hc);
      [lia|].
    apply in_map_iff in Hv. destruct Hv as (x & <- & Hx).
    exists x. split; [exact Hx|]. now rewrite (Hrank x Hx), Hc.
Qed.

(** The aggregated [in_dttm] of a group is the [in_dttm] of one of its
    rows, and the least one. *)
Lemma out_in_attained G x :
  grouped G -> In x G ->
  exists m,
    In m G /\ key_of m = key_of x /\
    o_in_dttm (out_row_of G x) = Some (g_in m) /\
    forall m', In m' G -> key_of m' = key_of x -> g_in m <= g_in m'.
Proof.
  intros HG Hx. unfold out_row_of, agg_of. simpl.
  assert (Hmem : In x (members G (key_of x)))
    by (apply members_In; auto).
  destruct (agg_min_some (map g_in (members G (key_of x)))) as (t & Ht).
  { intros Hnil. apply (in_map g_in) in Hmem. rewrite Hnil in Hmem.
    destruct Hmem. }
  rewrite Ht. apply agg_min_spec in Ht. destruct Ht as [Hin Hle].
  apply in_map_iff in Hin. destruct Hin as (m & <- & Hm).
  apply members_In in Hm; [|exact HG]. destruct Hm as [Hm Hk].
  exists m. repeat split; auto.
  intros m' Hm' Hk'. apply Hle, in_map, members_In; auto.
Qed.

Lemma out_rows_of_encounter G e :
  filter (fun o => o_encounter_block o =? e) (map (out_row_of G) G) =
  map (out_row_of G) (filter (fun x => g_enc x =? e) G).
Proof. now rewrite filter_map_swap. Qed.

(** C7. In the returned table the ranks of an encounter are exactly
    1, ..., k, where k is the number of distinct groups of the
    encounter; and ranks follow the aggregated [in_dttm] of the groups,
    ties broken by [icu_group]. *)
Theorem stitch_rank_dense adt_df gap out e :
  stitch_icu_stays adt_df gap = Some out ->
  let rows := filter (fun o => o_encounter_block o =? e) out in
  let k := List.length (nodup Nat.eq_dec (map o_icu_group rows)) in
  (forall n, In n (map o_icu_rank rows) <-> (1 <= n <= k)%nat) /\
  (forall o1 o2,
      In o1 rows -> In o2 rows ->
      exists t1 t2,
        o_in_dttm o1 = Some t1 /\ o_in_dttm o2 = Some t2 /\
        ((o_icu_rank o1 < o_icu_rank o2)%nat <->
         t1 < t2 \/ (t1 = t2 /\ (o_icu_group o1 < o_icu_group o2)%nat))).
Proof.
  intros H.
  destruct (stitch_inv _ _ _ H)
    as (icu_adt & G & Hrank & Hs & HG & Hblock & Hgrouped & ->).
  cbv zeta. rewrite out_rows_of_encounter.
  set (grows := filter (fun x => g_enc x =? e) G).
  split.
  - intros n. rewrite !map_map.
    change (map (fun x => o_icu_group (out_row_of G x)) grows)
      with (map the_group grows).
    pose proof (final_rank_range G e n Hgrouped) as Hr.
    cbv zeta in Hr. fold grows in Hr. rewrite <- Hr.
    rewrite in_map_iff. split; intros (x & Hx1 & Hx2); exists x; tauto.
  - intros o1 o2 H1 H2.
    apply in_map_iff in H1. destruct H1 as (x & <- & Hx).
    apply in_map_iff in H2. destruct H2 as (y & <- & Hy).
    apply filter_In in Hx, Hy. destruct Hx as [Hx Hex], Hy as [Hy Hey].
    apply Z.eqb_eq in Hex, Hey.
    assert (He : g_enc x = g_enc y) by congruence.
    destruct (out_in_attained G x Hgrouped Hx)
      as (mx & Hmx & Hkx & Hix & Hminx).
    destruct (out_in_attained G y Hgrouped Hy)
      as (my & Hmy & Hky & Hiy & Hminy).
    exists (g_in mx), (g_in my). split; [exact Hix|]. split; [exact Hiy|].
    rewrite (final_rank_lt_iff G x y Hgrouped Hx Hy He).
    change (o_icu_group (out_row_of G x)) with (the_group x).
    change (o_icu_group (out_row_of G y)) with (the_group y).
    assert (Hkx' : g_enc mx = g_enc x /\ the_group mx = the_group x)
      by (unfold key_of in Hkx; split; congruence).
    assert (Hky' : g_enc my = g_enc y /\ the_group my = the_group y)
      by (unfold key_of in Hky; split; congruence).
    destruct Hkx' as [Hex' Hgx']. destruct Hky' as [Hey' Hgy'].
    assert (Hmono : forall u v, In u G -> In v G -> g_enc u = g_enc v ->
                      (the_group u < the_group v)%nat -> g_in u <= g_in v).
    { intros u v Hu Hv Huv Hlt. subst G.
      destruct (group_separation gap _ u v Hs Hu Hv Huv Hlt)
        as (a & b & _ & _ & _ & _ & ? & ? & ? & _). lia. }
    split.
    + intros Hlt.
      assert (g_in mx <= g_in my)
        by (apply Hmono; auto; [congruence | lia]).
      lia.
    + intros [Hlt|[Heq Hlt]]; [|exact Hlt].
      destruct (Nat.lt_trichotomy (the_group x) (the_group y))
        as [Hg|[Hg|Hg]]; [exact Hg | |].
      * assert (Hk : key_of x = key_of y) by (unfold key_of; congruence).
        rewrite (out_row_of_key G x y Hk) in Hix. rewrite Hix in Hiy.
        injection Hiy as Hiy. lia.
      * assert (g_in my <= g_in mx)
          by (apply Hmono; auto; [congruence | lia]).
        lia.
Qed.

Lemma stitch_rank_dense_witness :
  exists out,
    stitch_icu_stays scenario_b (1 # 20) = Some out /\
    forall n,
      In n (map o_icu_rank
                (filter (fun o => (o_encounter_block o =? 1)%Z) out)) <->
      (1 <= n <=
       List.length
         (nodup Nat.eq_dec
            (map o_icu_group
                 (filter (fun o => (o_encounter_block o =? 1)%Z) out))))%nat.
Proof.
  eexists. split; [vm_compute; reflexivity|].
  refine (proj1 (stitch_rank_dense scenario_b (1 # 20) _ 1 _)).
  vm_compute. reflexivity.
Defined.

(** ** Where the rows of the block come from *)

Lemma row_source adt_df gap G x :
  icu_block adt_df gap = Some G -> In x G ->
  let r := adt (icu (block x)) in
  In r adt_df /\ icu_mask r = true /\
  encounter_block r = g_enc x /\ in_dttm r = Some (g_in x) /\
  out_dttm r = g_out x /\ location_type r = g_loc x.
Proof.
  intros H Hx. destruct (icu_block_closed _ _ _ H) as (icu_adt & Hrank & HG).
  subst G. apply grouped_from_In_icu in Hx.
  apply -> prepare_block_In in Hx.
  destruct (initial_rank_inv _ _ Hrank) as [Hsrc _].
  destruct (Hsrc _ Hx) as [Hin Ht].
  apply filter_In in Hin. destruct Hin as [Hin Hmask].
  simpl. repeat split; auto.
Qed.

(** Every distinct retained row is a row of the block. *)
Lemma row_target adt_df gap G r :
  icu_block adt_df gap = Some G -> In r adt_df -> icu_mask r = true ->
  exists x, In x G /\ adt (icu (block x)) = r.
Proof.
  intros H Hr Hmask.
  destruct (icu_block_closed _ _ _ H) as (icu_adt & Hrank & HG).
  unfold initial_rank in Hrank. apply all_some_Forall2 in Hrank.
  assert (Hs : In r (stable_sort adt_leb (filter icu_mask adt_df))).
  { apply (stable_sort_In adt_leb), filter_In. now split. }
  destruct (Forall2_In_l _ _ _ _ Hrank Hs) as (y & Hy & Hrow).
  apply rank_row_inv in Hrow. destruct Hrow as (Hadt & _).
  apply prepare_block_In in Hy.
  rewrite <- (grouped_from_icu gap 0 (prepare_block icu_adt)) in Hy.
  apply in_map_iff in Hy. destruct Hy as (x & Hxy & Hx).
  exists x. split; [now rewrite HG|]. now rewrite Hxy.
Qed.

Lemma nonpositive_gap z :
  z <= 0 -> (inject_Z z / secs_per_hour <= 0)%Q.
Proof.
  intros Hz. unfold Qle, Qdiv, Qmult, Qinv, inject_Z, secs_per_hour.
  simpl. lia.
Qed.

(** With a positive threshold, a segment that is not linked to its
    successor ends before the successor begins. *)
Lemma not_linked_gap gap n o :
  (0 < gap)%Q ->
  linked (gap_hrs (Some n) (Some o)) gap = false -> o < n.
Proof.
  intros Hgap Hnl. simpl in Hnl.
  destruct (Z_lt_le_dec o n) as [Hlt|Hle]; [exact Hlt|].
  assert (Hq : (inject_Z (n - o) / secs_per_hour <= 0)%Q)
    by (apply nonpositive_gap; lia).
  assert (Hl : Qlt_bool (inject_Z (n - o) / secs_per_hour) gap = true).
  { apply Qlt_bool_iff. eapply Qle_lt_trans; eassumption. }
  congruence.
Qed.

(** The aggregated [out_dttm] of a group is the latest [out_dttm] of
    its rows. *)
Lemma out_out_attained G x t :
  grouped G -> o_out_dttm (out_row_of G x) = Some t ->
  exists m,
    In m G /\ key_of m = key_of x /\ g_out m = Some t /\
    forall m' t', In m' G -> key_of m' = key_of x ->
                  g_out m' = Some t' -> t' <= t.
Proof.
  intros HG Ht. unfold out_row_of, agg_of in Ht. simpl in Ht.
  apply agg_max_some in Ht. destruct Ht as [Hin Hle].
  apply in_map_iff in Hin. destruct Hin as (m & Hm & Hmem).
  apply members_In in Hmem; [|exact HG]. destruct Hmem as [HmG Hk].
  exists m. repeat split; auto.
  intros m' t' Hm' Hk' Ht'. apply Hle. rewrite <- Ht'.
  apply in_map, members_In; auto.
Qed.

Lemma out_out_some G x o :
  grouped G -> In x G -> g_out x = Some o ->
  exists t, o_out_dttm (out_row_of G x) = Some t.
Proof.
  intros HG Hx Ho. unfold out_row_of, agg_of. simpl.
  destruct (agg_max (map g_out (members G (key_of x)))) as [t|] eqn:E;
    [eauto|].
  assert (Hn : g_out x = None).
  { eapply agg_max_none; [exact E|].
    apply in_map, members_In; auto. }
  congruence.
Qed.

(** ** Order and overlap of the returned intervals *)

(** C2, as stated, fails: the gap is measured from the [out_dttm] of
    the preceding segment only, so the third segment of
    [nested_segments] starts a second stay (rank 2) that lies inside the
    interval of the first stay (rank 1). *)
Lemma stitch_non_overlap_counterexample :
  exists out o1 o2 i1 t1 i2,
    stitch_icu_stays nested_segments 6 = Some out /\
    In o1 out /\ In o2 out /\
    o_encounter_block o1 = o_encounter_block o2 /\
    (o_icu_rank o1 < o_icu_rank o2)%nat /\
    o_in_dttm o1 = Some i1 /\ o_out_dttm o1 = Some t1 /\
    o_in_dttm o2 = Some i2 /\
    i1 <= i2 <= t1.
Proof.
  exists [ mk_out 1 2 1 (Some 0) (Some 360000) (Some "B"%string);
           mk_out 1 2 1 (Some 0) (Some 360000) (Some "B"%string);
           mk_out 1 3 2 (Some 36000) (Some 39600) (Some "C"%string) ].
  exists (mk_out 1 2 1 (Some 0) (Some 360000) (Some "B"%string)).
  exists (mk_out 1 3 2 (Some 36000) (Some 39600) (Some "C"%string)).
  exists 0, 360000, 36000.
  split; [vm_compute; reflexivity|].
  simpl. repeat split; auto; lia.
Qed.

(** C2, amended.  For a positive [gap_hours] and retained rows with
    both timestamps, [in_dttm <= out_dttm]: two returned rows of one
    encounter with the same rank are equal, and of two rows with
    different ranks the one of higher rank has the strictly later
    [in_dttm]; its interval begins after the end of the other when, in
    addition, the retained segments of an encounter end in the order in
    which they start. *)
Theorem stitch_groups_ordered adt_df gap out o1 o2 :
  stitch_icu_stays adt_df gap = Some out ->
  (0 < gap)%Q ->
  well_formed adt_df ->
  In o1 out -> In o2 out ->
  o_encounter_block o1 = o_encounter_block o2 ->
  (o_icu_rank o1 = o_icu_rank o2 -> o1 = o2) /\
  ((o_icu_rank o1 < o_icu_rank o2)%nat ->
   exists i1 t1 i2,
     o_in_dttm o1 = Some i1 /\ o_out_dttm o1 = Some t1 /\
     o_in_dttm o2 = Some i2 /\
     i1 < i2 /\
     (ends_in_order adt_df -> t1 < i2)).
Proof.
  intros H Hgap Hwf H1 H2 He.
  destruct (stitch_inv _ _ _ H)
    as (icu_adt & G & Hrank & Hs & HG & Hblock & Hgrouped & ->).
  apply in_map_iff in H1. destruct H1 as (x & <- & Hx).
  apply in_map_iff in H2. destruct H2 as (y & <- & Hy).
  simpl in He.
  pose proof (final_rank_lt_iff G x y Hgrouped Hx Hy He) as Hxy.
  pose proof (final_rank_lt_iff G y x Hgrouped Hy Hx (eq_sym He)) as Hyx.
  split.
  - intros Heq. apply out_row_of_key. unfold key_of. f_equal; [exact He|].
    lia.
  - intros Hlt. apply Hxy in Hlt.
    (* every row of the block has an [out_dttm] not before its [in_dttm] *)
    assert (Hout : forall m, In m G ->
                     exists o, g_out m = Some o /\ g_in m <= o).
    { intros m Hm.
      destruct (row_source _ _ _ _ Hblock Hm)
        as (Hin & Hmask & _ & Hi & Ho & _).
      destruct (Hwf _ Hin Hmask) as (i & o & Hi' & Ho' & Hio).
      exists o. split; [congruence|].
      assert (i = g_in m) by congruence. lia. }
    (* a row of a lower group ends before a row of a higher group begins *)
    assert (Hsep : forall u v, In u G -> In v G -> g_enc u = g_enc v ->
                     (the_group u < the_group v)%nat ->
                     exists a oa, In a G /\ g_enc a = g_enc u /\
                                  g_out a = Some oa /\
                                  g_in u <= g_in a /\ oa < g_in v).
    { intros u v Hu Hv Huv Hg. subst G.
      destruct (group_separation gap _ u v Hs Hu Hv Huv Hg)
        as (a & b & Ha & Hb & Hea & Heb & Hua & Hab & Hbv & Hnl).
      destruct (Hout a Ha) as (oa & Hoa & Hioa). rewrite Hoa in Hnl.
      apply not_linked_gap in Hnl; [|exact Hgap].
      exists a, oa. repeat split; auto. lia. }
    destruct (out_in_attained G x Hgrouped Hx)
      as (mx & Hmx & Hkx & Hix & _).
    destruct (out_in_attained G y Hgrouped Hy)
      as (my & Hmy & Hky & Hiy & _).
    destruct (Hout x Hx) as (ox & Hox & _).
    destruct (out_out_some G x ox Hgrouped Hx Hox) as (t1 & Ht1).
    destruct (out_out_attained G x t1 Hgrouped Ht1)
      as (mo & Hmo & Hko & Hto & _).
    assert (Ekx : g_enc mx = g_enc x /\ the_group mx = the_group x)
      by (unfold key_of in Hkx; split; congruence).
    assert (Eky : g_enc my = g_enc y /\ the_group my = the_group y)
      by (unfold key_of in Hky; split; congruence).
    assert (Eko : g_enc mo = g_enc x /\ the_group mo = the_group x)
      by (unfold key_of in Hko; split; congruence).
    destruct Ekx as [Ex1 Ex2], Eky as [Ey1 Ey2], Eko as [Eo1 Eo2].
    exists (g_in mx), t1, (g_in my).
    split; [exact Hix|]. split; [exact Ht1|]. split; [exact Hiy|].
    split.
    + destruct (Hsep mx my Hmx Hmy) as (a & oa & Ha & Hea & Hoa & H3 & H4);
        [congruence | lia |].
      destruct (Hout a Ha) as (oa' & Hoa' & Hle).
      assert (oa' = oa) by congruence. lia.
    + intros Hord.
      destruct (Hsep mo my Hmo Hmy) as (a & oa & Ha & Hea & Hoa & H3 & H4);
        [congruence | lia |].
      destruct (row_source _ _ _ _ Hblock Hmo)
        as (Hin1 & Hmask1 & Henc1 & Hi1 & Ho1 & _).
      destruct (row_source _ _ _ _ Hblock Ha)
        as (Hin2 & Hmask2 & Henc2 & Hi2 & Ho2 & _).
      rewrite Hto in Ho1. rewrite Hoa in Ho2.
      assert (t1 <= oa).
      { eapply (Hord _ _ _ _ _ _ Hin1 Hin2 Hmask1 Hmask2);
          eauto; congruence. }
      lia.
Qed.

Lemma scenario_b_well_formed : well_formed scenario_b.
Proof.
  intros r [<-|[<-|[]]] _; simpl; eexists; eexists;
    (split; [reflexivity|]); (split; [reflexivity|]); lia.
Qed.

Lemma stitch_groups_ordered_witness :
  (0 < 1 # 20)%Q /\ well_formed scenario_b /\
  exists i1 t1 i2,
    Some 28800 = Some i1 /\ Some 36000 = Some t1 /\ Some 36300 = Some i2 /\
    i1 < i2 /\ (ends_in_order scenario_b -> t1 < i2).
Proof.
  split; [reflexivity|]. split; [exact scenario_b_well_formed|].
  refine (proj2 (stitch_groups_ordered scenario_b (1 # 20)
                   [ mk_out 1 1 1 (Some 28800) (Some 36000)
                            (Some "micu"%string);
                     mk_out 1 2 2 (Some 36300) (Some 43200)
                            (Some "sicu"%string) ]
                   (mk_out 1 1 1 (Some 28800) (Some 36000)
                           (Some "micu"%string))
                   (mk_out 1 2 2 (Some 36300) (Some 43200)
                           (Some "sicu"%string))
                   _ _ _ _ _ _) _).
  - vm_compute. reflexivity.
  - reflexivity.
  - exact scenario_b_well_formed.
  - simpl. auto.
  - simpl. auto.
  - reflexivity.
  - simpl. lia.
Defined.

(** ** The location of a stay *)




(** ** The initial filter *)

Lemma icu_mask_iff r :
  icu_mask r = true <->
  exists c, location_category r = Some c /\
            (lower c = "icu"%string \/ lower c = "stepdown"%string).
Proof.
  unfold icu_mask. destruct (location_category r) as [c|].
  - rewrite orb_true_iff, !String.eqb_eq. split.
    + intros H. exists c. auto.
    + intros (c' & [= <-] & H). exact H.
  - split; [discriminate | intros (c & Hc & _); discriminate].
Qed.

Lemma stitch_same_retained adt_df adt_df' gap :
  filter icu_mask adt_df = filter icu_mask adt_df' ->
  stitch_icu_stays adt_df gap = stitch_icu_stays adt_df' gap.
Proof.
  intros H. unfold stitch_icu_stays, icu_block. now rewrite H.
Qed.

Lemma filter_idem {A} (f : A -> bool) l :
  filter f (filter f l) = filter f l.
Proof.
  induction l as [|x l IH]; [reflexivity|]. simpl.
  destruct (f x) eqn:E; simpl; [rewrite E|]; now rewrite ?IH.
Qed.

(** C10. The function depends on the retained rows only: it returns
    (or raises) on [adt_df] as on the rows of [adt_df] whose lower-cased
    [location_category] is 'icu' or 'stepdown'; a row with a null
    [location_category] is not retained, and removing it changes
    nothing; every returned row has the encounter and the [in_dttm] of
    a retained row. *)
Theorem stitch_filters_locations adt_df gap :
  stitch_icu_stays adt_df gap =
    stitch_icu_stays (filter icu_mask adt_df) gap /\
  (forall r, location_category r = None -> icu_mask r = false) /\
  (forall pre r post,
      adt_df = pre ++ r :: post -> location_category r = None ->
      stitch_icu_stays adt_df gap = stitch_icu_stays (pre ++ post) gap) /\
  (forall r,
      icu_mask r = true <->
      exists c, location_category r = Some c /\
                (lower c = "icu"%string \/ lower c = "stepdown"%string)) /\
  (forall out o,
      stitch_icu_stays adt_df gap = Some out -> In o out ->
      exists r, In r adt_df /\ icu_mask r = true /\
                encounter_block r = o_encounter_block o /\
                in_dttm r = o_in_dttm o).
Proof.
  split; [|split; [|split; [|split]]].
  - apply stitch_same_retained. symmetry. apply filter_idem.
  - intros r Hr. unfold icu_mask. now rewrite Hr.
  - intros pre r post -> Hr. apply stitch_same_retained.
    rewrite !filter_app. simpl. unfold icu_mask at 2. now rewrite Hr.
  - exact icu_mask_iff.
  - intros out o H Ho.
    destruct (stitch_inv _ _ _ H)
      as (icu_adt & G & Hrank & Hs & HG & Hblock & Hgrouped & ->).
    apply in_map_iff in Ho. destruct Ho as (x & <- & Hx).
    destruct (out_in_attained G x Hgrouped Hx)
      as (m & Hm & Hk & Hi & _).
    destruct (row_source _ _ _ _ Hblock Hm)
      as (Hin & Hmask & Henc & Hin_t & _).
    exists (adt (icu (block m))). repeat split; auto.
    + rewrite Henc. unfold key_of in Hk. simpl. congruence.
    + now rewrite Hi.
Qed.

Lemma stitch_filters_locations_witness :
  exists r,
    In r open_stay /\ icu_mask r = true /\
    encounter_block r = 1 /\ in_dttm r = Some 0.
Proof.
  exact (proj2 (proj2 (proj2 (proj2
           (stitch_filters_locations open_stay 6))))
           [mk_out 1 1 1 (Some 0) None (Some "micu"%string);
            mk_out 2 2 1 (Some 0) (Some 3600) (Some "sicu"%string)]
           (mk_out 1 1 1 (Some 0) None (Some "micu"%string))
           eq_refl (or_introl eq_refl)).
Defined.
End StitchFacts.

(** * Null timestamps *)
Module NullPolicy.
Import IcuStitching StitchSpec StitchFacts.



End NullPolicy.

(** * Further properties of the window scanner *)
Module HelperExtra.
Import Helper HelperSpec HelperFacts.

Lemma frame_same_encounter w cur r :
  in_frame w cur r = true ->
  (encounter_block r =? encounter_block cur) = true.
Proof.
  unfold in_frame. intros H. apply andb_true_iff in H. tauto.
Qed.

Lemma qualifies_encounter vent w cur :
  qualifies vent w cur <->
  qualifies
    (filter (fun r => encounter_block r =? encounter_block cur) vent) w cur.
Proof.
  assert (Hex : forall P : vent_row -> Prop,
             (exists r, In r vent /\ in_frame w cur r = true /\ P r) <->
             (exists r,
                 In r (filter (fun r => encounter_block r =?
                                        encounter_block cur) vent) /\
                 in_frame w cur r = true /\ P r)).
  { intros P. split; intros (r & Hin & Hf & HP); exists r.
    - split; [|now split]. apply filter_In. split; [exact Hin|].
      now apply (frame_same_encounter w).
    - apply filter_In in Hin. tauto. }
  unfold qualifies. rewrite <- !Hex. reflexivity.
Qed.

(** X1. Windows never reach across encounters: a pair of encounter [e]
    is returned on a table exactly when it is returned on the rows of
    [e] alone. *)
Theorem find_intubation_times_per_encounter vent w e (t : option Z) :
  In (e, t) (find_intubation_times vent w) <->
  In (e, t)
     (find_intubation_times
        (filter (fun r => encounter_block r =? e) vent) w).
Proof.
  rewrite !find_intubation_times_In. split.
  - intros (cur & Hcur & Hp & Hq). exists cur.
    assert (He : encounter_block cur = e) by congruence.
    split; [|split; [exact Hp|]].
    + apply filter_In. split; [exact Hcur|]. now apply Z.eqb_eq.
    + subst e. now apply (proj1 (qualifies_encounter vent w cur)).
  - intros (cur & Hcur & Hp & Hq). exists cur.
    apply filter_In in Hcur. destruct Hcur as [Hcur He].
    apply Z.eqb_eq in He.
    split; [exact Hcur|]. split; [exact Hp|].
    apply (proj2 (qualifies_encounter vent w cur)). now rewrite He.
Qed.

Lemma qualifies_incl vent vent' w cur :
  incl vent vent' -> qualifies vent w cur -> qualifies vent' w cur.
Proof.
  intros Hincl (H1 & H2 & H3 & H4). unfold qualifies.
  repeat split.
  - destruct H1 as (r & ? & ? & ?). exists r. auto.
  - destruct H2 as (r & ? & ? & ?). exists r. auto.
  - destruct H3 as (r & ? & ? & ?). exists r. auto.
  - destruct H4 as (r & ? & ? & ?). exists r. auto.
Qed.



Lemma timepoint_lt_irrefl a : ~ timepoint_lt a a.
Proof.
  unfold timepoint_lt. destruct a as [e [t|]]; simpl; lia.
Qed.

Lemma timepoint_lt_trans a b c :
  timepoint_lt a b -> timepoint_lt b c -> timepoint_lt a c.
Proof.
  unfold timepoint_lt.
  destruct a as [e [t|]], b as [e' [t'|]], c as [e'' [t''|]]; simpl;
    intuition lia.
Qed.

(** Two strictly sorted tables with the same rows are the same table. *)
Lemma sorted_unique {A} (lt : A -> A -> Prop) :
  (forall a, ~ lt a a) -> (forall a b c, lt a b -> lt b c -> lt a c) ->
  forall l l',
    StronglySorted lt l -> StronglySorted lt l' ->
    (forall x, In x l <-> In x l') -> l = l'.
Proof.
  intros Hirr Htr. induction l as [|a l IH]; intros l' Hs Hs' Hin.
  - destruct l' as [|a' l']; [reflexivity|].
    exfalso. apply (Hin a'). now left.
  - destruct l' as [|a' l'].
    + exfalso. apply (Hin a). now left.
    + inversion Hs as [|? ? Hsl Hall]; subst.
      inversion Hs' as [|? ? Hsl' Hall']; subst.
      rewrite Forall_forall in Hall, Hall'.
      assert (Heq : a = a').
      { destruct (proj1 (Hin a) (or_introl eq_refl)) as [E|Ha]; [now symmetry|].
        destruct (proj2 (Hin a') (or_introl eq_refl)) as [E|Ha']; [exact E|].
        exfalso. apply (Hirr a). eapply Htr; [apply Hall, Ha' | apply Hall', Ha]. }
      subst a'. f_equal. apply IH; auto.
      intros x. split; intros Hx.
      * destruct (proj1 (Hin x) (or_intror Hx)) as [E|Hx']; [|exact Hx'].
        subst x. exfalso. apply (Hirr a). now apply Hall.
      * destruct (proj2 (Hin x) (or_intror Hx)) as [E|Hx']; [|exact Hx'].
        subst x. exfalso. apply (Hirr a). now apply Hall'.
Qed.

Lemma find_In_set vent vent' w (p : timepoint) :
  (forall r, In r vent <-> In r vent') ->
  (In p (find_intubation_times vent w) <->
   In p (find_intubation_times vent' w)).
Proof.
  intros Hset. rewrite !find_intubation_times_In.
  split; intros (cur & Hcur & Hp & Hq); exists cur;
    (split; [now apply Hset|]); (split; [exact Hp|]).
  - apply (qualifies_incl vent); [|exact Hq]. intros r Hr. now apply Hset.
  - apply (qualifies_incl vent'); [|exact Hq]. intros r Hr. now apply Hset.
Qed.

(** X3. The result depends on the set of rows only: two tables with the
    same rows, in any order and with any repetitions, give the same
    result, row for row. *)
Theorem find_intubation_times_row_set vent vent' w :
  (forall r, In r vent <-> In r vent') ->
  find_intubation_times vent w = find_intubation_times vent' w.
Proof.
  intros Hset.
  apply (sorted_unique timepoint_lt timepoint_lt_irrefl timepoint_lt_trans);
    try apply find_intubation_times_sorted.
  intros p. now apply find_In_set.
Qed.

Lemma find_intubation_times_row_set_witness :
  (forall r, In r scenario_a <-> In r (rev scenario_a ++ scenario_a)) /\
  find_intubation_times scenario_a 1 =
  find_intubation_times (rev scenario_a ++ scenario_a) 1.
Proof.
  assert (H : forall r,
             In r scenario_a <-> In r (rev scenario_a ++ scenario_a)).
  { intros r. rewrite in_app_iff, <- in_rev. tauto. }
  split; [exact H|].
  exact (find_intubation_times_row_set scenario_a
           (rev scenario_a ++ scenario_a) 1 H).
Defined.





(** X5. Every returned pair is the encounter and time of a row of the
    table, and no more pairs are returned than the table has rows. *)
Theorem find_intubation_times_bounded vent w :
  (forall p, In p (find_intubation_times vent w) ->
             exists r, In r vent /\
                       p = (encounter_block r, recorded_dttm r)) /\
  (List.length (find_intubation_times vent w) <= List.length vent)%nat.
Proof.
  assert (Hsrc : forall p, In p (find_intubation_times vent w) ->
                   exists r, In r vent /\
                             p = (encounter_block r, recorded_dttm r)).
  { intros p Hp. apply find_intubation_times_In in Hp.
    destruct Hp as (cur & Hcur & Hp & _). eauto. }
  split; [exact Hsrc|].
  rewrite <- (length_map (fun r => (encounter_block r, recorded_dttm r)) vent).
  apply NoDup_incl_length; [apply find_intubation_times_NoDup|].
  intros p Hp. destruct (Hsrc p Hp) as (r & Hr & ->).
  exact (in_map (fun r => (encounter_block r, recorded_dttm r)) vent r Hr).
Qed.

Lemma in_range_zero t t' : in_range 0 t t' = true <-> t' = t.
Proof.
  rewrite in_range_iff. unfold in_window. split.
  - intros [H1 H2].
    assert (H1' : (inject_Z t <= inject_Z t')%Q) by lra.
    assert (H2' : (inject_Z t' <= inject_Z t)%Q) by lra.
    rewrite <- Zle_Qle in H1', H2'. lia.
  - intros ->. split; lra.
Qed.

(** X6. With a window of zero hours a recorded time is returned exactly
    when rows of the encounter recorded at that very time carry the
    four signals between them. *)
Theorem find_intubation_times_zero_window vent e t :
  In (e, Some t) (find_intubation_times vent 0) <->
  (exists r, In r vent /\ encounter_block r = e /\
             recorded_dttm r = Some t /\
             device_category r = Some "IMV"%string) /\
  (exists r, In r vent /\ encounter_block r = e /\
             recorded_dttm r = Some t /\ mode_category r <> None) /\
  (exists r, In r vent /\ encounter_block r = e /\
             recorded_dttm r = Some t /\ fio2_set r <> None) /\
  (exists r, In r vent /\ encounter_block r = e /\
             recorded_dttm r = Some t /\ peep_set r <> None).
Proof.
  assert (Hframe : forall cur r,
             recorded_dttm cur = Some t ->
             (in_frame 0 cur r = true <->
              encounter_block r = encounter_block cur /\
              recorded_dttm r = Some t)).
  { intros cur r Hc. unfold in_frame. rewrite Hc, andb_true_iff, Z.eqb_eq.
    destruct (recorded_dttm r) as [t'|].
    - rewrite in_range_zero. split.
      + intros [He ->]. auto.
      + intros [He [= ->]]. auto.
    - split; [intros [_ H]; discriminate | intros [_ H]; discriminate]. }
  rewrite find_intubation_times_In. split.
  - intros (cur & Hcur & [= -> Ht] & H1 & H2 & H3 & H4).
    symmetry in Ht.
    repeat split.
    + destruct H1 as (r & Hr & Hf & HP). exists r.
      apply (Hframe cur r Ht) in Hf. tauto.
    + destruct H2 as (r & Hr & Hf & HP). exists r.
      apply (Hframe cur r Ht) in Hf. tauto.
    + destruct H3 as (r & Hr & Hf & HP). exists r.
      apply (Hframe cur r Ht) in Hf. tauto.
    + destruct H4 as (r & Hr & Hf & HP). exists r.
      apply (Hframe cur r Ht) in Hf. tauto.
  - intros ((r1 & Hr1 & He1 & Ht1 & HP1) & (r2 & Hr2 & He2 & Ht2 & HP2) &
            (r3 & Hr3 & He3 & Ht3 & HP3) & (r4 & Hr4 & He4 & Ht4 & HP4)).
    exists r1. split; [exact Hr1|]. split; [now rewrite He1, Ht1|].
    unfold qualifies. repeat split.
    + exists r1. repeat split; auto. apply (Hframe r1 r1 Ht1). auto.
    + exists r2. repeat split; auto. apply (Hframe r1 r2 Ht1).
      split; [congruence | exact Ht2].
    + exists r3. repeat split; auto. apply (Hframe r1 r3 Ht1).
      split; [congruence | exact Ht3].
    + exists r4. repeat split; auto. apply (Hframe r1 r4 Ht1).
      split; [congruence | exact Ht4].
Qed.

End HelperExtra.

(** * Further properties of the ICU stay stitcher *)
Module StitchExtra.
Import IcuStitching StitchSpec StitchFacts.

Lemma icu_block_none adt_df gap :
  icu_block adt_df gap = None <->
  exists r, In r adt_df /\ icu_mask r = true /\ in_dttm r = None.
Proof.
  unfold icu_block.
  destruct (initial_rank (filter icu_mask adt_df)) as [icu_adt|] eqn:E.
  - split; [discriminate|].
    intros (r & Hr & Hmask & Hn).
    assert (Hnone : initial_rank (filter icu_mask adt_df) = None).
    { apply initial_rank_none. exists r. split; [|exact Hn].
      apply filter_In. now split. }
    congruence.
  - split; [|reflexivity]. intros _.
    apply initial_rank_none in E. destruct E as (r & Hr & Hn).
    apply filter_In in Hr. destruct Hr as [Hr Hmask]. eauto.
Qed.

(** X7. The only way to an exception is a missing [in_dttm]: when every
    retained row has an [in_dttm] the function returns a table (the fills
    leave no group undefined, so the last cast cannot fail). *)
Theorem stitch_returns adt_df gap :
  (forall r, In r adt_df -> icu_mask r = true -> in_dttm r <> None) ->
  exists out, stitch_icu_stays adt_df gap = Some out.
Proof.
  intros Hin. rewrite stitch_closed.
  destruct (icu_block adt_df gap) as [G|] eqn:E; [simpl; eauto|].
  apply icu_block_none in E. destruct E as (r & Hr & Hmask & Hn).
  exfalso. now apply (Hin r Hr Hmask).
Qed.

Lemma scenario_b_in_dttm :
  forall r, In r scenario_b -> icu_mask r = true -> in_dttm r <> None.
Proof. intros r [<-|[<-|[]]] _; discriminate. Qed.

Lemma stitch_returns_witness :
  exists out, stitch_icu_stays scenario_b 6 = Some out.
Proof. exact (stitch_returns scenario_b 6 scenario_b_in_dttm). Defined.

(** X8. A retained row without [in_dttm] makes the function raise: its
    initial rank is NaN and the cast to integer fails. *)
Theorem stitch_raises adt_df gap r :
  In r adt_df -> icu_mask r = true -> in_dttm r = None ->
  stitch_icu_stays adt_df gap = None.
Proof.
  intros Hr Hmask Hn. rewrite stitch_closed.
  assert (E : icu_block adt_df gap = None)
    by (apply icu_block_none; eauto).
  now rewrite E.
Qed.

Lemma stitch_raises_witness :
  stitch_icu_stays
    [mk_adt "P1" 1 "H1" None (Some 10) (Some "ICU") (Some "micu")]%string 6
  = None.
Proof.
  apply (stitch_raises _ 6
           (mk_adt "P1" 1 "H1" None (Some 10) (Some "ICU")
                   (Some "micu"))%string).
  - now left.
  - reflexivity.
  - reflexivity.
Defined.

Lemma filter_none {A} (f : A -> bool) l :
  (forall x, In x l -> f x = false) -> filter f l = [].
Proof.
  induction l as [|x l IH]; intros H; simpl; [reflexivity|].
  rewrite (H x) by now left. apply IH. intros y Hy. apply H. now right.
Qed.

(** X9. A table without ICU or stepdown rows (the empty table among
    them) gives the empty table, not an exception. *)
Theorem stitch_no_icu_rows adt_df gap :
  (forall r, In r adt_df -> icu_mask r = false) ->
  stitch_icu_stays adt_df gap = Some [].
Proof.
  intros H.
  rewrite (stitch_same_retained adt_df [] gap)
    by (simpl; now apply filter_none).
  reflexivity.
Qed.

Lemma stitch_no_icu_rows_witness :
  stitch_icu_stays
    [mk_adt "P1" 1 "H1" (Some 0) (Some 10) (Some "ward") None;
     mk_adt "P1" 1 "H1" (Some 10) (Some 20) None None]%string 6
  = Some [].
Proof.
  apply stitch_no_icu_rows.
  intros r [<-|[<-|[]]]; reflexivity.
Defined.

(** X10. The encounters of the returned table are the encounters that
    have a retained row: none is lost and none is added. *)
Theorem stitch_encounters adt_df gap out e :
  stitch_icu_stays adt_df gap = Some out ->
  ((exists o, In o out /\ o_encounter_block o = e) <->
   (exists r, In r adt_df /\ icu_mask r = true /\ encounter_block r = e)).
Proof.
  intros H.
  destruct (stitch_inv _ _ _ H)
    as (icu_adt & G & Hrank & Hs & HG & Hblock & Hgrouped & ->).
  split.
  - intros (o & Ho & He). apply in_map_iff in Ho.
    destruct Ho as (x & <- & Hx).
    destruct (row_source _ _ _ _ Hblock Hx) as (Hin & Hmask & Henc & _).
    exists (adt (icu (block x))). now rewrite Henc.
  - intros (r & Hr & Hmask & He).
    destruct (row_target _ _ _ _ Hblock Hr Hmask) as (x & Hx & Hadt).
    exists (out_row_of G x). split; [now apply in_map|].
    simpl. unfold g_enc, enc. now rewrite Hadt.
Qed.

Lemma stitch_encounters_witness :
  (exists o,
      In o [ mk_out 1 1 1 (Some 0) None (Some "micu"%string);
             mk_out 2 2 1 (Some 0) (Some 3600) (Some "sicu"%string) ] /\
      o_encounter_block o = 2) <->
  (exists r, In r open_stay /\ icu_mask r = true /\ encounter_block r = 2).
Proof.
  exact (stitch_encounters open_stay 6 _ 2 eq_refl).
Defined.

(** X11. Every retained segment lies within the interval of a returned
    row of its encounter: that row starts no later than the segment, and
    ends no earlier when the segment has an [out_dttm]. *)
Theorem stitch_covers_segments adt_df gap out r :
  stitch_icu_stays adt_df gap = Some out ->
  In r adt_df -> icu_mask r = true ->
  exists o i i',
    In o out /\ o_encounter_block o = encounter_block r /\
    in_dttm r = Some i /\ o_in_dttm o = Some i' /\ i' <= i /\
    forall t, out_dttm r = Some t ->
              exists t', o_out_dttm o = Some t' /\ t <= t'.
Proof.
  intros H Hr Hmask.
  destruct (stitch_inv _ _ _ H)
    as (icu_adt & G & Hrank & Hs & HG & Hblock & Hgrouped & ->).
  destruct (row_target _ _ _ _ Hblock Hr Hmask) as (x & Hx & Hadt).
  destruct (row_source _ _ _ _ Hblock Hx)
    as (_ & _ & Henc & Hin_t & Hout & _).
  rewrite Hadt in Henc, Hin_t, Hout.
  destruct (out_in_attained G x Hgrouped Hx) as (m & Hm & Hk & Hi & Hmin).
  exists (out_row_of G x), (g_in x), (g_in m).
  split; [now apply in_map|]. split; [simpl; congruence|].
  split; [exact Hin_t|]. split; [exact Hi|]. split; [now apply Hmin|].
  intros t Ht. rewrite Hout in Ht.
  destruct (out_out_some G x t Hgrouped Hx Ht) as (t' & Ht').
  exists t'. split; [exact Ht'|].
  destruct (out_out_attained G x t' Hgrouped Ht') as (_ & _ & _ & _ & Hmax).
  now apply (Hmax x t Hx).
Qed.

Lemma stitch_covers_segments_witness :
  exists o i i',
    In o [ mk_out 1 2 1 (Some 0) (Some 360000) (Some "B"%string);
           mk_out 1 2 1 (Some 0) (Some 360000) (Some "B"%string);
           mk_out 1 3 2 (Some 36000) (Some 39600) (Some "C"%string) ] /\
    o_encounter_block o = 1 /\
    Some 3600 = Some i /\ o_in_dttm o = Some i' /\ i' <= i /\
    forall t, Some 7200 = Some t ->
              exists t', o_out_dttm o = Some t' /\ t <= t'.
Proof.
  exact (stitch_covers_segments nested_segments 6 _
           (mk_adt "P1" 1 "H1" (Some 3600) (Some 7200) (Some "ICU")
                   (Some "B"))%string
           eq_refl (or_intror (or_introl eq_refl)) eq_refl).
Defined.

(** X12. No timestamp or location is invented: the [out_dttm] and the
    [location_type] of a returned row, when not null, are those of
    retained rows of the same encounter. *)
Theorem stitch_values_from_rows adt_df gap out o :
  stitch_icu_stays adt_df gap = Some out -> In o out ->
  (o_out_dttm o <> None ->
   exists r, In r adt_df /\ icu_mask r = true /\
             encounter_block r = o_encounter_block o /\
             out_dttm r = o_out_dttm o) /\
  (o_location_type o <> None ->
   exists r, In r adt_df /\ icu_mask r = true /\
             encounter_block r = o_encounter_block o /\
             location_type r = o_location_type o).
Proof.
  intros H Ho.
  destruct (stitch_inv _ _ _ H)
    as (icu_adt & G & Hrank & Hs & HG & Hblock & Hgrouped & ->).
  apply in_map_iff in Ho. destruct Ho as (x & <- & Hx).
  split.
  - intros Hsome.
    destruct (o_out_dttm (out_row_of G x)) as [t|] eqn:Et; [|congruence].
    destruct (out_out_attained G x t Hgrouped Et) as (m & Hm & Hk & Ht & _).
    destruct (row_source _ _ _ _ Hblock Hm)
      as (Hin & Hmask & Henc & _ & Hout & _).
    exists (adt (icu (block m))).
    split; [exact Hin|]. split; [exact Hmask|]. split.
    + rewrite Henc. unfold key_of in Hk. simpl. congruence.
    + congruence.
  - intros Hsome.
    change (o_location_type (out_row_of G x))
      with (agg_last (map g_loc (members G (key_of x)))) in *.
    pose proof (agg_last_spec g_loc (members G (key_of x))) as Hlast.
    destruct (agg_last (map g_loc (members G (key_of x)))) as [v|];
      [|congruence].
    destruct Hlast as (pre & m & post & Hdec & Hv & _).
    assert (Hmem : In m (members G (key_of x)))
      by (rewrite Hdec; apply in_or_app; right; now left).
    apply members_In in Hmem; [|exact Hgrouped].
    destruct Hmem as [Hm Hk].
    destruct (row_source _ _ _ _ Hblock Hm)
      as (Hin & Hmask & Henc & _ & _ & Hloc).
    exists (adt (icu (block m))).
    split; [exact Hin|]. split; [exact Hmask|]. split.
    + rewrite Henc. unfold key_of in Hk. simpl. congruence.
    + congruence.
Qed.

Lemma stitch_values_from_rows_witness :
  exists r, In r nested_segments /\ icu_mask r = true /\
            encounter_block r = 1 /\ out_dttm r = Some 360000.
Proof.
  refine (proj1 (stitch_values_from_rows nested_segments 6 _
                   (mk_out 1 2 1 (Some 0) (Some 360000) (Some "B"%string))
                   eq_refl (or_introl eq_refl)) _).
  discriminate.
Defined.

(** X13. When the retained rows have both timestamps with
    [in_dttm <= out_dttm], so has every returned row. *)
Theorem stitch_interval_valid adt_df gap out o :
  stitch_icu_stays adt_df gap = Some out ->
  well_formed adt_df ->
  In o out ->
  exists i t, o_in_dttm o = Some i /\ o_out_dttm o = Some t /\ i <= t.
Proof.
  intros H Hwf Ho.
  destruct (stitch_inv _ _ _ H)
    as (icu_adt & G & Hrank & Hs & HG & Hblock & Hgrouped & ->).
  apply in_map_iff in Ho. destruct Ho as (x & <- & Hx).
  destruct (out_in_attained G x Hgrouped Hx) as (m & Hm & Hk & Hi & _).
  destruct (row_source _ _ _ _ Hblock Hm)
    as (Hin & Hmask & _ & Hin_t & Hout & _).
  destruct (Hwf _ Hin Hmask) as (i & o & Hi' & Ho' & Hio).
  assert (Hmo : g_out m = Some o) by congruence.
  assert (Him : i = g_in m) by congruence.
  assert (Et : exists t, o_out_dttm (out_row_of G m) = Some t)
    by (eapply out_out_some; eauto).
  rewrite (out_row_of_key G m x Hk) in Et. destruct Et as (t & Et).
  destruct (out_out_attained G x t Hgrouped Et) as (_ & _ & _ & _ & Hmax).
  exists (g_in m), t. split; [exact Hi|]. split; [exact Et|].
  specialize (Hmax m o Hm Hk Hmo). lia.
Qed.

Lemma nested_segments_well_formed : well_formed nested_segments.
Proof.
  intros r [<-|[<-|[<-|[]]]] _; simpl.
  - exists 0, 360000. repeat split; lia.
  - exists 3600, 7200. repeat split; lia.
  - exists 36000, 39600. repeat split; lia.
Qed.

Lemma stitch_interval_valid_witness :
  well_formed nested_segments /\
  exists i t, Some 0 = Some i /\ Some 360000 = Some t /\ i <= t.
Proof.
  split; [exact nested_segments_well_formed|].
  exact (stitch_interval_valid nested_segments 6 _
           (mk_out 1 2 1 (Some 0) (Some 360000) (Some "B"%string))
           eq_refl nested_segments_well_formed (or_introl eq_refl)).
Defined.

(** X14. The returned table is in order of encounter and, within an
    encounter, of rank. *)
Theorem stitch_output_sorted adt_df gap out :
  stitch_icu_stays adt_df gap = Some out ->
  StronglySorted
    (fun a b =>
       o_encounter_block a < o_encounter_block b \/
       (o_encounter_block a = o_encounter_block b /\
        (o_icu_rank a <= o_icu_rank b)%nat))
    out.
Proof.
  intros H.
  destruct (stitch_inv _ _ _ H)
    as (icu_adt & G & Hrank & Hs & HG & Hblock & Hgrouped & ->).
  apply StronglySorted_map.
  pose proof (grouped_from_key_sorted gap 0 _ Hs) as H1.
  pose proof (grouped_from_sorted gap 0 (prepare_block icu_adt)) as H2.
  rewrite <- HG in H1, H2.
  eapply StronglySorted_impl_in;
    [|exact (StronglySorted_conj _ _ _ H1 H2)].
  intros a b Ha Hb [Hk Hg].
  change (g_enc a < g_enc b \/
          (g_enc a = g_enc b /\
           (o_icu_rank (out_row_of G a) <= o_icu_rank (out_row_of G b))%nat)).
  unfold g_key_le in Hk.
  destruct Hk as [Hlt|[He _]]; [now left|]. right. split; [exact He|].
  pose proof (final_rank_lt_iff G b a Hgrouped Hb Ha (eq_sym He)). lia.
Qed.

Lemma stitch_output_sorted_witness :
  StronglySorted
    (fun a b =>
       o_encounter_block a < o_encounter_block b \/
       (o_encounter_block a = o_encounter_block b /\
        (o_icu_rank a <= o_icu_rank b)%nat))
    [ mk_out 1 1 1 (Some 0) None (Some "micu"%string);
      mk_out 2 2 1 (Some 0) (Some 3600) (Some "sicu"%string) ].
Proof. exact (stitch_output_sorted open_stay 6 _ eq_refl). Defined.

Lemma boundary_between_dec {A B} (B_eq_dec : forall a b : B, {a = b} + {a <> b})
      (f : A -> B) (l : list A) : forall x y,
  In y l -> f x <> f y ->
  exists pre a b post,
    x :: l = pre ++ a :: b :: post /\ f a <> f b /\ In y (b :: post).
Proof.
  induction l as [|z l IH]; intros x y Hy Hne; [destruct Hy|].
  destruct (B_eq_dec (f x) (f z)) as [Heq|Hxz].
  - destruct Hy as [->|Hy]; [contradiction|].
    assert (Hzy : f z <> f y) by congruence.
    destruct (IH z y Hy Hzy) as (pre & a & b & post & Hl & Hab & Hin).
    exists (x :: pre), a, b, post. simpl. rewrite Hl. auto.
  - exists [], x, z, l. simpl. auto.
Qed.

Lemma same_group_later gap l l1 x l2 y :
  grouped_from gap 0 l = l1 ++ x :: l2 -> In y l2 ->
  the_group x = the_group y -> g_enc x = g_enc y.
Proof.
  intros HG Hy Hg.
  destruct (Z.eq_dec (g_enc x) (g_enc y)) as [He|Hne]; [exact He|].
  exfalso.
  destruct (boundary_between_dec Z.eq_dec g_enc l2 x y Hy Hne)
    as (pre & a & b & post & Hl & Hab & Hyb).
  pose proof (grouped_from_sorted gap 0 l) as Hgs. rewrite HG in Hgs.
  apply StronglySorted_app_inv in Hgs. destruct Hgs as (_ & Hgs & _).
  destruct (sorted_decomp _ _ _ _ _ _ _ Hgs Hl) as (Hxa & Hab' & Hby).
  assert (HG' : grouped_from gap 0 l = (l1 ++ pre) ++ a :: b :: post)
    by (rewrite HG, Hl, app_assoc; reflexivity).
  destruct (grouped_from_adjacent gap l 0 _ _ _ _ HG') as [Hlk Hiff].
  assert (Hnl : linked6hrs (block a) = false).
  { rewrite Hlk. unfold link_to.
    replace (g_enc b =? g_enc a) with false; [reflexivity|].
    symmetry. apply Z.eqb_neq. congruence. }
  assert (Hxa' : (the_group x <= the_group a)%nat)
    by (destruct Hxa as [->|Hxa]; lia).
  assert (Hby' : (the_group b <= the_group y)%nat)
    by (destruct (Hby y Hyb) as [->|Hb]; lia).
  assert (Heq : the_group a = the_group b) by lia.
  apply Hiff in Heq. congruence.
Qed.

Lemma same_group_same_encounter gap l x y :
  In x (grouped_from gap 0 l) -> In y (grouped_from gap 0 l) ->
  the_group x = the_group y -> g_enc x = g_enc y.
Proof.
  intros Hx Hy Hg.
  destruct (in_split _ _ Hx) as (l1 & l2 & HG).
  rewrite HG in Hy. apply in_app_or in Hy.
  destruct Hy as [Hy|[Hy|Hy]].
  - destruct (in_split _ _ Hy) as (m1 & m2 & Hl1).
    rewrite Hl1, <- app_assoc in HG. simpl in HG.
    symmetry. eapply (same_group_later gap l m1 y (m2 ++ x :: l2) x);
      [exact HG | | now symmetry].
    apply in_or_app. right. now left.
  - now subst y.
  - eapply same_group_later; eauto.
Qed.

(** X15. An [icu_group] number belongs to one encounter: two returned
    rows with the same [icu_group] have the same [encounter_block] (and
    are equal), so segments of different encounters are never merged. *)
Theorem stitch_group_one_encounter adt_df gap out o1 o2 :
  stitch_icu_stays adt_df gap = Some out ->
  In o1 out -> In o2 out ->
  o_icu_group o1 = o_icu_group o2 ->
  o_encounter_block o1 = o_encounter_block o2 /\ o1 = o2.
Proof.
  intros H H1 H2 Hg.
  destruct (stitch_inv _ _ _ H)
    as (icu_adt & G & Hrank & Hs & HG & Hblock & Hgrouped & ->).
  apply in_map_iff in H1. destruct H1 as (x & <- & Hx).
  apply in_map_iff in H2. destruct H2 as (y & <- & Hy).
  simpl in Hg.
  assert (He : g_enc x = g_enc y).
  { rewrite HG in Hx, Hy. eapply same_group_same_encounter; eauto. }
  split; [exact He|].
  apply out_row_of_key. unfold key_of. congruence.
Qed.

Lemma stitch_group_one_encounter_witness :
  1 = 1 /\
  mk_out 1 2 1 (Some 28800) (Some 43200) (Some "sicu"%string) =
  mk_out 1 2 1 (Some 28800) (Some 43200) (Some "sicu"%string).
Proof.
  exact (stitch_group_one_encounter scenario_b 6 _
           (mk_out 1 2 1 (Some 28800) (Some 43200) (Some "sicu"%string))
           (mk_out 1 2 1 (Some 28800) (Some 43200) (Some "sicu"%string))
           eq_refl (or_introl eq_refl) (or_intror (or_introl eq_refl))
           eq_refl).
Defined.

Lemma linked_mono gap1 gap2 hrs :
  (gap1 <= gap2)%Q -> linked hrs gap1 = true -> linked hrs gap2 = true.
Proof.
  intros Hle. destruct hrs as [h|]; simpl; [|discriminate].
  rewrite !Qlt_bool_iff. intros Hlt. eapply Qlt_le_trans; eassumption.
Qed.

Lemma coarser_groups gap1 gap2 l :
  (gap1 <= gap2)%Q ->
  forall n,
    StronglySorted
      (fun p q : nat * nat => fst p = fst q -> snd p = snd q)
      (combine (map the_group (grouped_from gap1 n l))
               (map the_group (grouped_from gap2 n l))).
Proof.
  intros Hle. induction l as [|r l IH]; intros n; [constructor|].
  rewrite !grouped_from_cons.
  remember (grouped_from gap1 (S n) l) as rest1 eqn:H1.
  remember (grouped_from gap2 (S n) l) as rest2 eqn:H2.
  cbn [map combine].
  constructor; [subst rest1 rest2; apply IH|].
  destruct (linked (gap_hrs (next_in r l) (out_dttm (adt r))) gap1) eqn:E1.
  - rewrite (linked_mono gap1 gap2 _ Hle E1).
    destruct (linked_next _ _ _ E1) as (c & l' & -> & He).
    specialize (IH (S n)). rewrite <- H1, <- H2 in IH.
    rewrite grouped_from_cons in H1, H2.
    subst rest1 rest2. cbn [map combine] in *.
    inversion IH as [|? ? _ Hall]; subst.
    constructor.
    + unfold the_group. simpl. auto.
    + eapply Forall_impl; [|exact Hall].
      intros q Hq. unfold the_group in *. simpl in *. exact Hq.
  - rewrite Forall_forall. intros [g1 g2] Hq Heq. exfalso.
    apply in_combine_l in Hq. apply in_map_iff in Hq.
    destruct Hq as (x & Hgx & Hx). subst rest1.
    apply grouped_from_bounds in Hx.
    unfold the_group in *. simpl in *. lia.
Qed.

(** X16. Raising the threshold only merges: on the same table the block
    holds the same segments in the same order for both thresholds, and
    two segments that share a group under the lower threshold share one
    under the higher. *)
Theorem stitch_threshold_monotone adt_df gap1 gap2 G1 G2 :
  icu_block adt_df gap1 = Some G1 ->
  icu_block adt_df gap2 = Some G2 ->
  (gap1 <= gap2)%Q ->
  map (fun x => icu (block x)) G1 = map (fun x => icu (block x)) G2 /\
  forall i j x1 y1 x2 y2,
    nth_error G1 i = Some x1 -> nth_error G1 j = Some y1 ->
    nth_error G2 i = Some x2 -> nth_error G2 j = Some y2 ->
    icu_group x1 = icu_group y1 -> icu_group x2 = icu_group y2.
Proof.
  intros H1 H2 Hle.
  destruct (icu_block_closed _ _ _ H1) as (icu_adt & Hrank & HG1).
  destruct (icu_block_closed _ _ _ H2) as (icu_adt' & Hrank' & HG2).
  assert (icu_adt' = icu_adt) by congruence. subst icu_adt'.
  set (l := prepare_block icu_adt) in *.
  split; [now rewrite HG1, HG2, !grouped_from_icu|].
  intros i j x1 y1 x2 y2 Hx1 Hy1 Hx2 Hy2 Hg.
  assert (Hs1 : forall x, In x G1 -> icu_group x = Some (the_group x))
    by (rewrite HG1; intros x Hx; eapply grouped_from_some, Hx).
  assert (Hs2 : forall x, In x G2 -> icu_group x = Some (the_group x))
    by (rewrite HG2; intros x Hx; eapply grouped_from_some, Hx).
  rewrite (Hs1 x1), (Hs1 y1) in Hg by (eapply nth_error_In; eauto).
  rewrite (Hs2 x2), (Hs2 y2) by (eapply nth_error_In; eauto).
  injection Hg as Hg. f_equal.
  pose proof (coarser_groups gap1 gap2 l Hle 0) as Hss.
  rewrite <- HG1, <- HG2 in Hss.
  assert (Hpi : nth_error (combine (map the_group G1) (map the_group G2)) i
                = Some (the_group x1, the_group x2))
    by (apply nth_error_combine; now apply map_nth_error).
  assert (Hpj : nth_error (combine (map the_group G1) (map the_group G2)) j
                = Some (the_group y1, the_group y2))
    by (apply nth_error_combine; now apply map_nth_error).
  destruct (Nat.lt_trichotomy i j) as [Hlt|[->|Hgt]].
  - exact (StronglySorted_nth _ _ _ _ _ _ Hss Hlt Hpi Hpj Hg).
  - congruence.
  - symmetry.
    exact (StronglySorted_nth _ _ _ _ _ _ Hss Hgt Hpj Hpi (eq_sym Hg)).
Qed.

Lemma stitch_threshold_monotone_witness :
  exists G1 G2,
    icu_block scenario_b (1 # 20) = Some G1 /\
    icu_block scenario_b 6 = Some G2 /\
    map (fun x => icu (block x)) G1 = map (fun x => icu (block x)) G2.
Proof.
  eexists. eexists.
  split; [vm_compute; reflexivity|]. split; [vm_compute; reflexivity|].
  refine (proj1 (stitch_threshold_monotone scenario_b (1 # 20) 6 _ _ _ _ _)).
  - vm_compute. reflexivity.
  - vm_compute. reflexivity.
  - discriminate.
Defined.

Lemma icu_row_determined icu_adt_df icu_adt r1 r2 :
  initial_rank icu_adt_df = Some icu_adt ->
  In r1 icu_adt -> In r2 icu_adt -> adt r1 = adt r2 -> r1 = r2.
Proof.
  unfold initial_rank. intros H H1 H2 Heq. apply all_some_Forall2 in H.
  destruct (Forall2_In_r _ _ _ _ H H1) as (a1 & _ & Hrow1).
  destruct (Forall2_In_r _ _ _ _ H H2) as (a2 & _ & Hrow2).
  pose proof (rank_row_inv _ _ _ Hrow1) as (Ha1 & _).
  pose proof (rank_row_inv _ _ _ Hrow2) as (Ha2 & _).
  subst a1 a2. rewrite Heq in Hrow1. congruence.
Qed.

Lemma NoDup_map_inj {A B} (f : A -> B) l x y :
  NoDup (map f l) -> In x l -> In y l -> f x = f y -> x = y.
Proof.
  induction l as [|a l IH]; intros Hnd Hx Hy Heq; [destruct Hx|].
  simpl in Hnd. inversion Hnd as [|? ? Hnotin Hnd']; subst.
  destruct Hx as [->|Hx], Hy as [->|Hy]; auto.
  - exfalso. apply Hnotin. rewrite Heq. now apply in_map.
  - exfalso. apply Hnotin. rewrite <- Heq. now apply in_map.
Qed.

Lemma singleton_list {A} (l : list A) x :
  NoDup l -> In x l -> (forall y, In y l -> y = x) -> l = [x].
Proof.
  intros Hnd Hx Hall. destruct l as [|a l]; [destruct Hx|].
  assert (a = x) by (apply Hall; now left). subst a.
  destruct l as [|b l]; [reflexivity|].
  assert (b = x) by (apply Hall; right; now left). subst b.
  inversion Hnd as [|? ? Hnotin _]; subst. exfalso. apply Hnotin. now left.
Qed.

(** X17. An encounter with a single retained row gives a single
    returned row, of rank 1, with the [in_dttm], [out_dttm] and
    [location_type] of that row, whatever the threshold. *)
Theorem stitch_single_segment adt_df gap out r :
  stitch_icu_stays adt_df gap = Some out ->
  In r adt_df -> icu_mask r = true ->
  (forall r', In r' adt_df -> icu_mask r' = true ->
              encounter_block r' = encounter_block r -> r' = r) ->
  exists g,
    filter (fun o => o_encounter_block o =? encounter_block r) out =
    [mk_out (encounter_block r) g 1 (in_dttm r) (out_dttm r)
            (location_type r)].
Proof.
  intros H Hr Hmask Honly.
  destruct (stitch_inv _ _ _ H)
    as (icu_adt & G & Hrank & Hs & HG & Hblock & Hgrouped & ->).
  destruct (row_target _ _ _ _ Hblock Hr Hmask) as (x & Hx & Hadt).
  destruct (row_source _ _ _ _ Hblock Hx)
    as (_ & _ & Henc & Hin_t & Hout & Hloc).
  rewrite Hadt in Henc, Hin_t, Hout, Hloc.
  assert (Hndmap : NoDup (map (fun g => icu (block g)) G)).
  { rewrite HG, grouped_from_icu. apply prepare_block_NoDup. }
  assert (Hnd : NoDup G) by (eapply NoDup_map_inv, Hndmap).
  (* the rows of the encounter in the block are the row [x] alone *)
  assert (Hsame : forall y, In y G -> g_enc y = g_enc x -> y = x).
  { intros y Hy He.
    destruct (row_source _ _ _ _ Hblock Hy) as (Hin' & Hmask' & Henc' & _).
    assert (Hry : adt (icu (block y)) = r)
      by (apply Honly; auto; congruence).
    apply (NoDup_map_inj (fun g => icu (block g)) G y x Hndmap Hy Hx).
    eapply icu_row_determined; [exact Hrank | | | congruence].
    - apply prepare_block_In. rewrite HG in Hy.
      eapply grouped_from_In_icu, Hy.
    - apply prepare_block_In. rewrite HG in Hx.
      eapply grouped_from_In_icu, Hx. }
  assert (Hrows : filter (fun y => g_enc y =? encounter_block r) G = [x]).
  { apply singleton_list.
    - now apply NoDup_filter.
    - apply filter_In. split; [exact Hx|]. apply Z.eqb_eq. congruence.
    - intros y Hy. apply filter_In in Hy. destruct Hy as [Hy He].
      apply Z.eqb_eq in He. apply Hsame; congruence. }
  assert (Hmembers : members G (key_of x) = [x]).
  { apply singleton_list.
    - unfold members. now apply NoDup_filter.
    - apply members_In; auto.
    - intros y Hy. apply members_In in Hy; [|exact Hgrouped].
      destruct Hy as [Hy Hk]. apply Hsame; [exact Hy|].
      unfold key_of in Hk. congruence. }
  assert (Hrank1 : o_icu_rank (out_row_of G x) = 1%nat).
  { pose proof (final_rank_range G (encounter_block r)
                  (o_icu_rank (out_row_of G x)) Hgrouped) as Hrange.
    cbv zeta in Hrange. rewrite Hrows in Hrange.
    pose proof (proj1 Hrange
                  (ex_intro _ x (conj (or_introl eq_refl) eq_refl))) as Hb.
    change (List.length (nodup Nat.eq_dec (map the_group [x])))
      with 1%nat in Hb.
    lia. }
  exists (the_group x).
  rewrite out_rows_of_encounter, Hrows. simpl. f_equal.
  replace (out_row_of G x)
    with (mk_out (g_enc x) (the_group x) (o_icu_rank (out_row_of G x))
                 (a_in_dttm (agg_of G (key_of x)))
                 (a_out_dttm (agg_of G (key_of x)))
                 (a_location_type (agg_of G (key_of x))))
    by reflexivity.
  rewrite Hrank1. unfold agg_of. rewrite Hmembers. simpl.
  rewrite <- Henc, Hin_t, Hout, Hloc.
  unfold agg_max, agg_last. simpl.
  destruct (g_out x), (g_loc x); reflexivity.
Qed.

Lemma stitch_single_segment_witness :
  exists g,
    filter (fun o => o_encounter_block o =? 1)
           [ mk_out 1 1 1 (Some 0) None (Some "micu"%string);
             mk_out 2 2 1 (Some 0) (Some 3600) (Some "sicu"%string) ] =
    [mk_out 1 g 1 (Some 0) None (Some "micu"%string)].
Proof.
  refine (stitch_single_segment open_stay 6 _
            (mk_adt "P1" 1 "H1" (Some 0) None (Some "ICU")
                    (Some "micu"))%string
            eq_refl (or_introl eq_refl) eq_refl _).
  intros r' [<-|[<-|[]]] _ He; [reflexivity | discriminate He].
Defined.




(** X19. The row of rank 1 gives the first ICU admission: its [in_dttm]
    is the earliest [in_dttm] among the retained rows of its
    encounter. *)
Theorem stitch_first_rank_earliest adt_df gap out o r :
  stitch_icu_stays adt_df gap = Some out ->
  In o out -> o_icu_rank o = 1%nat ->
  In r adt_df -> icu_mask r = true ->
  encounter_block r = o_encounter_block o ->
  exists i t, o_in_dttm o = Some i /\ in_dttm r = Some t /\ i <= t.
Proof.
  intros H Ho Hone Hr Hmask He.
  destruct (stitch_inv _ _ _ H)
    as (icu_adt & G & Hrank & Hs & HG & Hblock & Hgrouped & ->).
  apply in_map_iff in Ho. destruct Ho as (x & <- & Hx).
  destruct (row_target _ _ _ _ Hblock Hr Hmask) as (y & Hy & Hadt).
  destruct (row_source _ _ _ _ Hblock Hy)
    as (_ & _ & Henc & Hin_t & _).
  rewrite Hadt in Henc, Hin_t.
  change (o_encounter_block (out_row_of G x)) with (g_enc x) in He.
  assert (Hxy : g_enc y = g_enc x) by congruence.
  destruct (out_in_attained G x Hgrouped Hx) as (m & Hm & Hk & Hi & Hmin).
  exists (g_in m), (g_in y). split; [exact Hi|]. split; [exact Hin_t|].
  assert (Hge : (1 <= o_icu_rank (out_row_of G y))%nat).
  { rewrite final_rank_closed by exact Hgrouped. unfold dense_rank. lia. }
  pose proof (final_rank_lt_iff G y x Hgrouped Hy Hx Hxy) as Hlt.
  assert (Hg : (the_group x <= the_group y)%nat) by lia.
  assert (Hkm : g_enc m = g_enc x /\ the_group m = the_group x)
    by (unfold key_of in Hk; split; congruence).
  destruct Hkm as [Hem Hgm].
  destruct (Nat.eq_dec (the_group x) (the_group y)) as [Heq|Hne].
  - apply Hmin; [exact Hy|]. unfold key_of. congruence.
  - rewrite HG in Hm, Hy.
    destruct (group_separation gap _ m y Hs Hm Hy) as
        (a & b & _ & _ & _ & _ & ? & ? & ? & _); [congruence | lia | lia].
Qed.

Lemma stitch_first_rank_earliest_witness :
  exists i t, Some 0 = Some i /\ Some 3600 = Some t /\ i <= t.
Proof.
  exact (stitch_first_rank_earliest nested_segments 6 _
           (mk_out 1 2 1 (Some 0) (Some 360000) (Some "B"%string))
           (mk_adt "P1" 1 "H1" (Some 3600) (Some 7200) (Some "ICU")
                   (Some "B"))%string
           eq_refl (or_introl eq_refl) eq_refl
           (or_intror (or_introl eq_refl)) eq_refl eq_refl).
Defined.

(** ** Exact duplicates *)

Section SortDuplicate.
Context {A : Type}.
Variable leb : A -> A -> bool.
Hypothesis leb_total : forall a b, leb a b = true \/ leb b a = true.
Hypothesis leb_trans :
  forall a b c, leb a b = true -> leb b c = true -> leb a c = true.

Lemma insert_split r l :
  exists t1 t2, l = t1 ++ t2 /\ insert_sorted leb r l = t1 ++ r :: t2.
Proof.
  induction l as [|x l IH]; simpl.
  - exists [], []. auto.
  - destruct (leb r x).
    + exists [], (x :: l). auto.
    + destruct IH as (t1 & t2 & -> & ->). exists (x :: t1), t2. auto.
Qed.

Lemma insert_below_all a l :
  (forall y, In y l -> leb a y = true) -> insert_sorted leb a l = a :: l.
Proof.
  destruct l as [|y l]; intros H; simpl; [reflexivity|].
  now rewrite (H y (or_introl eq_refl)).
Qed.

(** Inserting a row into a sorted table and into the same table with
    one more copy of [r] gives the same table, up to that copy. *)
Lemma insert_ins a r s1 : forall s2,
  StronglySorted (lebP leb) (s1 ++ r :: s2) ->
  exists t1 t2,
    insert_sorted leb a (s1 ++ s2) = t1 ++ t2 /\
    insert_sorted leb a (s1 ++ r :: s2) = t1 ++ r :: t2 /\
    incl s1 t1.
Proof.
  induction s1 as [|x s1 IH]; intros s2 Hs.
  - simpl. inversion Hs as [|? ? _ Hall]; subst.
    rewrite Forall_forall in Hall.
    destruct (leb a r) eqn:E.
    + rewrite insert_below_all
        by (intros y Hy; eapply leb_trans; [exact E | now apply Hall]).
      exists [a], s2. repeat split; auto. intros z [].
    + destruct (insert_split a s2) as (t1 & t2 & Hl & Hins).
      exists [], (insert_sorted leb a s2). repeat split; auto.
      intros z [].
  - simpl in *. inversion Hs as [|? ? Hs' _]; subst.
    destruct (leb a x).
    + exists (a :: x :: s1), s2. repeat split; auto.
      intros z Hz. now right.
    + destruct (IH s2 Hs') as (t1 & t2 & H1 & H2 & Hincl).
      exists (x :: t1), t2. rewrite H1, H2. repeat split; auto.
      intros z [<-|Hz]; [now left | right; now apply Hincl].
Qed.

Lemma insert_copy r s1 : forall s2,
  StronglySorted (lebP leb) (s1 ++ r :: s2) ->
  exists t1 t2,
    insert_sorted leb r (s1 ++ s2) = t1 ++ t2 /\
    insert_sorted leb r (s1 ++ r :: s2) = t1 ++ r :: t2 /\
    In r t1.
Proof.
  induction s1 as [|x s1 IH]; intros s2 Hs.
  - simpl. inversion Hs as [|? ? _ Hall]; subst.
    rewrite Forall_forall in Hall.
    assert (Hrr : leb r r = true) by (destruct (leb_total r r); auto).
    rewrite Hrr, insert_below_all by exact Hall.
    exists [r], s2. repeat split; auto. now left.
  - simpl in *. inversion Hs as [|? ? Hs' _]; subst.
    destruct (leb r x).
    + exists (r :: x :: s1), s2. repeat split; auto. now left.
    + destruct (IH s2 Hs') as (t1 & t2 & H1 & H2 & Hin).
      exists (x :: t1), t2. rewrite H1, H2. repeat split; auto. now right.
Qed.

Lemma sort_ins r p q :
  exists s1 s2,
    stable_sort leb (p ++ q) = s1 ++ s2 /\
    stable_sort leb (p ++ r :: q) = s1 ++ r :: s2.
Proof.
  induction p as [|a p IH]; simpl.
  - destruct (insert_split r (stable_sort leb q)) as (t1 & t2 & H1 & H2).
    exists t1, t2. auto.
  - destruct IH as (s1 & s2 & H1 & H2).
    assert (Hs : StronglySorted (lebP leb) (s1 ++ r :: s2))
      by (rewrite <- H2; now apply stable_sort_sorted).
    destruct (insert_ins a r s1 s2 Hs) as (t1 & t2 & E1 & E2 & _).
    exists t1, t2. now rewrite H1, H2.
Qed.

(** Sorting a table in which [r] occurs once more, further down, gives
    the sorted table with one more copy of [r], below its first. *)
Lemma sort_extra r p q :
  In r p ->
  exists s1 s2,
    stable_sort leb (p ++ q) = s1 ++ s2 /\
    stable_sort leb (p ++ r :: q) = s1 ++ r :: s2 /\
    In r s1.
Proof.
  induction p as [|a p IH]; intros Hr; [destruct Hr|]. simpl.
  destruct Hr as [->|Hr].
  - destruct (sort_ins r p q) as (s1 & s2 & H1 & H2).
    assert (Hs : StronglySorted (lebP leb) (s1 ++ r :: s2))
      by (rewrite <- H2; now apply stable_sort_sorted).
    destruct (insert_copy r s1 s2 Hs) as (t1 & t2 & E1 & E2 & Hin).
    exists t1, t2. now rewrite H1, H2.
  - destruct (IH Hr) as (s1 & s2 & H1 & H2 & Hin).
    assert (Hs : StronglySorted (lebP leb) (s1 ++ r :: s2))
      by (rewrite <- H2; now apply stable_sort_sorted).
    destruct (insert_ins a r s1 s2 Hs) as (t1 & t2 & E1 & E2 & Hincl).
    exists t1, t2. rewrite H1, H2. auto.
Qed.
End SortDuplicate.

Lemma drop_later_copy {K} (dec : forall a b : K, {a = b} + {a <> b})
      y m1 : forall seen m2,
  In y m1 \/ In y seen ->
  drop_duplicates_from dec seen (m1 ++ y :: m2) =
  drop_duplicates_from dec seen (m1 ++ m2).
Proof.
  induction m1 as [|x m1 IH]; intros seen m2 Hy; simpl.
  - destruct Hy as [[]|Hy].
    destruct (in_dec dec y seen); [reflexivity | contradiction].
  - destruct (in_dec dec x seen) as [Hx|Hx].
    + apply IH. destruct Hy as [[<-|Hy]|Hy]; auto.
    + f_equal. apply IH. destruct Hy as [[<-|Hy]|Hy]; auto.
      * right. now left.
      * right. now right.
Qed.

Lemma all_some_app {A} (l1 l2 : list (option A)) :
  all_some (l1 ++ l2) =
  match all_some l1, all_some l2 with
  | Some a, Some b => Some (a ++ b)
  | _, _ => None
  end.
Proof.
  induction l1 as [|[x|] l1 IH]; simpl.
  - destruct (all_some l2); reflexivity.
  - rewrite IH. destruct (all_some l1), (all_some l2); reflexivity.
  - reflexivity.
Qed.

Lemma adt_leb_spec a b :
  adt_leb a b = true <->
  encounter_block a < encounter_block b \/
  (encounter_block a = encounter_block b /\
   opt_leb (in_dttm a) (in_dttm b) = true).
Proof.
  unfold adt_leb. now rewrite orb_true_iff, andb_true_iff, Z.ltb_lt, Z.eqb_eq.
Qed.

Lemma opt_leb_total a b : opt_leb a b = true \/ opt_leb b a = true.
Proof.
  destruct a, b; simpl; auto. rewrite !Z.leb_le. lia.
Qed.

Lemma opt_leb_trans a b c :
  opt_leb a b = true -> opt_leb b c = true -> opt_leb a c = true.
Proof.
  destruct a, b, c; simpl; auto; try discriminate.
  rewrite !Z.leb_le. lia.
Qed.

Lemma adt_leb_total a b : adt_leb a b = true \/ adt_leb b a = true.
Proof.
  rewrite !adt_leb_spec.
  destruct (Z.lt_trichotomy (encounter_block a) (encounter_block b))
    as [H|[H|H]]; auto.
  destruct (opt_leb_total (in_dttm a) (in_dttm b)); auto.
Qed.

Lemma adt_leb_trans a b c :
  adt_leb a b = true -> adt_leb b c = true -> adt_leb a c = true.
Proof.
  rewrite !adt_leb_spec. intros [H1|[H1 H1']] [H2|[H2 H2']];
    try (left; lia).
  right. split; [lia|]. eapply opt_leb_trans; eauto.
Qed.

Lemma count_below_set {K} (dec : forall a b : K, {a = b} + {a <> b})
      (ltb : K -> K -> bool) keys keys' k :
  (forall x, In x keys <-> In x keys') ->
  count_below dec ltb keys k = count_below dec ltb keys' k.
Proof.
  intros Hset. unfold count_below.
  apply NoDup_same_length; try apply NoDup_nodup.
  intros x. rewrite !nodup_In, !filter_In, Hset. reflexivity.
Qed.

(** The initial rank of a row depends on the set of rows of the table
    only. *)
Lemma rank_row_set tbl tbl' a :
  (forall x, In x tbl <-> In x tbl') ->
  rank_row tbl a = rank_row tbl' a.
Proof.
  intros Hset.
  assert (Hkeys : forall k, In k (in_keys tbl) <-> In k (in_keys tbl')).
  { intros [e t]. rewrite !in_keys_In.
    split; intros (r & Hr & H); exists r; (split; [now apply Hset | exact H]). }
  assert (Hng : forall r, ngroup_in tbl r = ngroup_in tbl' r).
  { intros r. unfold ngroup_in, ngroup.
    destruct (in_dttm r); [|reflexivity].
    now rewrite (count_below_set _ _ _ _ _ Hkeys). }
  assert (Hvals : forall e v,
             In v (ngroup_in_of tbl tbl e) <->
             In v (ngroup_in_of tbl' tbl' e)).
  { intros e v. rewrite !ngroup_in_of_In.
    split; intros (r & Hr & He & Hv); exists r.
    - split; [now apply Hset|]. split; [exact He|]. now rewrite <- Hng.
    - split; [now apply Hset|]. split; [exact He|]. now rewrite Hng. }
  unfold rank_row. rewrite <- Hng.
  destruct (in_dttm a); [|reflexivity].
  destruct (ngroup_in tbl a); [|reflexivity].
  unfold dense_rank.
  now rewrite (count_below_set _ _ _ _ _ (Hvals (encounter_block a))).
Qed.

Lemma initial_rank_duplicate p q r :
  In r p ->
  match initial_rank (p ++ q), initial_rank (p ++ r :: q) with
  | Some m, Some m' =>
      drop_duplicates icu_row_eq_dec m' = drop_duplicates icu_row_eq_dec m
  | None, None => True
  | _, _ => False
  end.
Proof.
  intros Hr. unfold initial_rank.
  destruct (sort_extra adt_leb adt_leb_total adt_leb_trans r p q Hr)
    as (s1 & s2 & H1 & H2 & Hin).
  rewrite H1, H2.
  assert (Hset : forall x, In x (s1 ++ s2) <-> In x (s1 ++ r :: s2)).
  { intros x. rewrite !in_app_iff. simpl. split; [tauto|].
    intros [H|[<-|H]]; auto. }
  rewrite (map_ext _ _ (fun a => rank_row_set _ _ a Hset)).
  set (f := rank_row (s1 ++ r :: s2)).
  rewrite !map_app, !all_some_app. simpl.
  destruct (all_some (map f s1)) as [m1|] eqn:E1; [|exact I].
  assert (Hy : exists y, f r = Some y /\ In y m1).
  { apply all_some_Forall2 in E1.
    destruct (Forall2_In_l _ _ _ _ E1 Hin) as (y & Hy & Hfy). eauto. }
  destruct Hy as (y & Hfy & Hym). rewrite Hfy.
  destruct (all_some (map f s2)) as [m2|]; [|exact I].
  unfold drop_duplicates. apply drop_later_copy. now left.
Qed.

(** X20. A row that repeats an earlier row of the table exactly is
    ignored: removing it changes neither the returned table nor whether
    the function raises. *)
Theorem stitch_ignores_duplicates pre r post gap :
  In r pre ->
  stitch_icu_stays (pre ++ r :: post) gap =
  stitch_icu_stays (pre ++ post) gap.
Proof.
  intros Hr. destruct (icu_mask r) eqn:Hmask.
  - unfold stitch_icu_stays, icu_block. rewrite !filter_app. simpl.
    rewrite Hmask.
    assert (Hin : In r (filter icu_mask pre))
      by (apply filter_In; now split).
    pose proof (initial_rank_duplicate (filter icu_mask pre)
                  (filter icu_mask post) r Hin) as Hd.
    destruct (initial_rank (filter icu_mask pre ++ filter icu_mask post))
      as [m|];
      destruct (initial_rank
                  (filter icu_mask pre ++ r :: filter icu_mask post))
      as [m'|]; try contradiction; [|reflexivity].
    unfold prepare_block. now rewrite Hd.
  - apply stitch_same_retained. rewrite !filter_app. simpl.
    now rewrite Hmask.
Qed.

Lemma stitch_ignores_duplicates_witness :
  stitch_icu_stays
    (scenario_b ++
     [mk_adt "P1" 1 "H1" (Some 28800) (Some 36000) (Some "ICU")
             (Some "micu")]%string) 6 =
  stitch_icu_stays (scenario_b ++ []) 6.
Proof.
  apply (stitch_ignores_duplicates scenario_b
           (mk_adt "P1" 1 "H1" (Some 28800) (Some 36000) (Some "ICU")
                   (Some "micu"))%string [] 6).
  now left.
Defined.
End StitchExtra.
